(** * DataPrepper: the TF-IDF vectorization pipeline of [src/DataPrepper.py]

    A shallow embedding of the class [DataPrepper]: corpus tokenization with
    document-frequency accounting ([tokenize_dataset]), vocabulary culling
    ([cull_doc_freq]), TF-IDF vector construction ([setup_tfidf_vectors]) and
    the two pipelines [run] and [run_test].

    Conventions.
    - A Python [dict] keeps insertion order, and the order of
      [doc_freq_map.keys()] fixes the index of every token in every feature
      vector, so a dict is an association list with distinct keys
      ([dict_wf]), read by first match and written in place.
    - A Python exception is a value of [exn]; a fallible computation returns
      [res A].
    - Python [int]s are [Z].  A float is kept as the tree of operations that
      produced it ([pynum]): the code applies [math.log], [/], [+] and [*] to
      integers that come from [len] and [list.count], and the tree
      determines the float.
    - [Tokenizer.tokenize] lives outside this file: it is a parameter.
    - Text written to standard output is not part of the model; the
      exceptions the printing code can raise are. *)

From Stdlib Require Import ZArith.
From stdpp Require Import base list strings.

Local Open Scope string_scope.
Local Open Scope list_scope.
Local Open Scope Z_scope.

(** ** Exceptions and fallible results *)

Inductive exn : Type :=
| ZeroDivisionError
| ValueError
| KeyError (key : string)
| IndexError
| TypeError
| FileNotFoundError (path : string).

Inductive res (A : Type) : Type :=
| Ok (a : A)
| Raise (e : exn).
Arguments Ok {A} a.
Arguments Raise {A} e.

Global Instance res_ret : MRet res := λ A a, Ok a.
Global Instance res_bind : MBind res := λ A B k m,
  match m with
  | Ok a => k a
  | Raise e => Raise e
  end.

(** ** Python dicts *)

Abbreviation dict V := (list (string * V)).

Section dict.
Context {V : Type}.

(** [d.keys()], in insertion order. *)
Definition keys (d : dict V) : list string := d.*1.

(** [d.get(k)]: the first (and, in a well-formed dict, only) entry. *)
Fixpoint dict_get (d : dict V) (k : string) : option V :=
  match d with
  | [] => None
  | (k', v) :: rest => if decide (k' = k) then Some v else dict_get rest k
  end.

(** [d[k]]. *)
Definition getitem (d : dict V) (k : string) : res V :=
  match dict_get d k with
  | Some v => Ok v
  | None => Raise (KeyError k)
  end.

(** [d[k] = v]: an existing key keeps its position, a new one goes last. *)
Fixpoint dict_set (d : dict V) (k : string) (v : V) : dict V :=
  match d with
  | [] => [(k, v)]
  | (k', v') :: rest =>
      if decide (k' = k) then (k, v) :: rest else (k', v') :: dict_set rest k v
  end.

Definition dict_wf (d : dict V) : Prop := NoDup (keys d).
End dict.

(** [len(x)] as a Python int. *)
Definition len {A : Type} (l : list A) : Z := Z.of_nat (length l).

(** [l.count(x)]. *)
Definition count (l : list string) (x : string) : Z :=
  len (filter (λ y, y = x) l).

(** [l.index(x)]: position of the first occurrence, [ValueError] if absent. *)
Fixpoint list_index (l : list string) (x : string) : option nat :=
  match l with
  | [] => None
  | y :: rest => if decide (y = x) then Some 0%nat else S <$> list_index rest x
  end.

Definition index (l : list string) (x : string) : res nat :=
  match list_index l x with
  | Some i => Ok i
  | None => Raise ValueError
  end.

(** [l[i]] for reading, [l[i] = x] for writing; both raise out of range. *)
Definition list_getitem {A : Type} (l : list A) (i : nat) : res A :=
  match l !! i with
  | Some x => Ok x
  | None => Raise IndexError
  end.

Definition list_setitem {A : Type} (l : list A) (i : nat) (x : A) : res (list A) :=
  if decide (i < length l)%nat then Ok (<[i := x]> l) else Raise IndexError.

(** ** Numbers *)

Inductive pynum : Type :=
| PInt (z : Z)                (* an int *)
| PFloat0                     (* the literal 0.0 *)
| PLog (x : pynum)            (* math.log(x) *)
| PTrueDiv (a b : Z)          (* a / b on ints *)
| PAdd (x y : pynum)
| PMul (x y : pynum).

(** [log(n / d)] for ints [n], [d]: the division raises for [d = 0], and
    [math.log] raises [ValueError] on a quotient that is not positive.  Both
    ints are lengths here, far from the sizes at which [n / d] would
    overflow or round a positive quotient to zero. *)
Definition log_ratio (n d : Z) : res pynum :=
  if decide (d = 0) then Raise ZeroDivisionError
  else if decide (n * d ≤ 0) then Raise ValueError
  else Ok (PLog (PTrueDiv n d)).

(** ** The progress bar

    [percentage = (chunk / N) * 100] is the only step that can raise. *)
Definition print_loading_bar (chunk N : Z) : res unit :=
  if decide (N = 0) then Raise ZeroDivisionError else Ok ().

(** ** Vocabulary culling *)

Abbreviation doc_freq := (dict (list string)).

Definition cull_step (doc_freq_map : doc_freq) (low_num_docs high_num_docs : Z)
    (culled_df_map : doc_freq) (word : string) : doc_freq :=
  match dict_get doc_freq_map word with
  | Some docs =>
      let num_occurrences := len docs in
      if bool_decide (num_occurrences < high_num_docs)
         && bool_decide (num_occurrences > low_num_docs)
      then dict_set culled_df_map word docs
      else culled_df_map
  | None => culled_df_map  (* not reached: [word] is a key of [doc_freq_map] *)
  end.

Definition cull_doc_freq (doc_freq_map : doc_freq) (low_num_docs high_num_docs : Z)
    : doc_freq :=
  foldl (cull_step doc_freq_map low_num_docs high_num_docs) [] (keys doc_freq_map).

(** ** Corpora

    A corpus maps a document name to the two-element list
    [[text, class_name]].  [tokenize_dataset] overwrites slot 0, the raw
    text, with the token list: [raw_corpus] is the dict before, [corpus]
    the same dict after. *)

Abbreviation raw_corpus := (dict (string * string)).
Abbreviation corpus := (dict (list string * string)).

(** ** Tokenization and document frequencies *)

Section tokenize.
(** [self.Tokenizer.tokenize] *)
Variable tokenize : string → list string.

(** The loop over the tokens of one document (lines 89-96). *)
Fixpoint record_tokens (doc_name : string) (tokens : list string)
    (tokens_processed_before : list string) (doc_freq_map : doc_freq) : doc_freq :=
  match tokens with
  | [] => doc_freq_map
  | token :: rest =>
      if bool_decide (token ∉ tokens_processed_before) then
        let tokens_processed_before := tokens_processed_before ++ [token] in
        match dict_get doc_freq_map token with
        | None =>
            record_tokens doc_name rest tokens_processed_before
              (dict_set doc_freq_map token [doc_name])
        | Some docs =>
            record_tokens doc_name rest tokens_processed_before
              (dict_set doc_freq_map token (docs ++ [doc_name]))
        end
      else record_tokens doc_name rest tokens_processed_before doc_freq_map
  end.

(** The loop over the documents (lines 85-98); [i] is the [enumerate]
    counter.  The entries are visited in key order, each read and written
    back under its own key. *)
Fixpoint tokenize_loop (N_DOCS i : Z) (entries : raw_corpus) (doc_freq_map : doc_freq)
    : res (corpus * doc_freq) :=
  match entries with
  | [] => Ok ([], doc_freq_map)
  | (doc_name, (text, class_name)) :: rest =>
      let tokens := tokenize text in
      let doc_freq_map := record_tokens doc_name tokens [] doc_freq_map in
      _ ← print_loading_bar (i + 1) N_DOCS;
      '(docs, doc_freq_map) ← tokenize_loop N_DOCS (i + 1) rest doc_freq_map;
      Ok ((doc_name, (tokens, class_name)) :: docs, doc_freq_map)
  end.

Definition tokenize_dataset (dict_class_documents : raw_corpus)
    : res (corpus * doc_freq) :=
  let doc_freq_map : doc_freq := [] in
  let N_DOCS := len (keys dict_class_documents) in
  _ ← print_loading_bar 0 N_DOCS;
  tokenize_loop N_DOCS 0 dict_class_documents doc_freq_map.
End tokenize.

(** ** TF-IDF vectors *)

(** Truth value of the optional argument [doc_freq_map_testset]: [None] and
    the empty dict are false. *)
Definition truthy (d : option doc_freq) : bool :=
  match d with
  | Some (_ :: _) => true
  | _ => false
  end.

(** [doc_freq_map_testset[token]] *)
Definition subscript (d : option doc_freq) (token : string) : res (list string) :=
  match d with
  | Some m => getitem m token
  | None => Raise TypeError
  end.

(** Lines 125-133: the weight of one token of [doc]. *)
Definition token_weight (N_DOCNAMES : Z) (doc_freq_map : doc_freq)
    (doc_freq_map_testset : option doc_freq) (test_mode : bool)
    (doc : list string) (token : string) : res pynum :=
  let tf := count doc token in
  let log_tf :=
    if bool_decide (tf > 0) then PAdd (PInt 1) (PLog (PInt tf)) else PFloat0 in
  log_idf ←
    (if test_mode && truthy doc_freq_map_testset
     then docs ← subscript doc_freq_map_testset token; log_ratio N_DOCNAMES (len docs)
     else docs ← getitem doc_freq_map token; log_ratio N_DOCNAMES (len docs));
  Ok (PMul log_tf log_idf).

(** Lines 123-134: the loop over the tokens of [doc]. *)
Fixpoint fill_vector (vocab : list string) (N_DOCNAMES : Z) (doc_freq_map : doc_freq)
    (doc_freq_map_testset : option doc_freq) (test_mode : bool)
    (doc : list string) (tokens : list string) (f_vector : list pynum)
    : res (list pynum) :=
  match tokens with
  | [] => Ok f_vector
  | token :: rest =>
      if bool_decide (token ∈ vocab) then
        w ← token_weight N_DOCNAMES doc_freq_map doc_freq_map_testset test_mode doc token;
        i ← index vocab token;
        f_vector ← list_setitem f_vector i w;
        fill_vector vocab N_DOCNAMES doc_freq_map doc_freq_map_testset test_mode
          doc rest f_vector
      else
        fill_vector vocab N_DOCNAMES doc_freq_map doc_freq_map_testset test_mode
          doc rest f_vector
  end.

(** Lines 118-138: the loop over the documents. *)
Fixpoint vectorize_loop (vocab : list string) (N_DOCNAMES : Z) (doc_freq_map : doc_freq)
    (doc_freq_map_testset : option doc_freq) (test_mode : bool)
    (i : Z) (entries : corpus) : res (list (list pynum * string)) :=
  match entries with
  | [] => Ok []
  | (doc_name, (doc, class_name)) :: rest =>
      let N_VOCAB := length vocab in
      f_vector ← fill_vector vocab N_DOCNAMES doc_freq_map doc_freq_map_testset
                   test_mode doc doc (replicate N_VOCAB (PInt 0));
      _ ← print_loading_bar (i + 1) N_DOCNAMES;
      others ← vectorize_loop vocab N_DOCNAMES doc_freq_map doc_freq_map_testset
                 test_mode (i + 1) rest;
      Ok ((f_vector, class_name) :: others)
  end.

Definition setup_tfidf_vectors (dict_class_documents : corpus) (doc_freq_map : doc_freq)
    (doc_freq_map_testset : option doc_freq) (test_mode : bool)
    : res (list (list pynum * string)) :=
  let vocab := keys doc_freq_map in
  let N_DOCNAMES := len (keys dict_class_documents) in
  _ ← print_loading_bar 0 N_DOCNAMES;
  vectorize_loop vocab N_DOCNAMES doc_freq_map doc_freq_map_testset test_mode
    0 dict_class_documents.

(** ** Reading the corpus from disk

    [disk] maps a path to the text of the file there; [open] fails on a path
    that is not on the disk.  [self.fpc] is the parsed manifest. *)

Definition open_read (disk : dict string) (path : string) : res string :=
  match dict_get disk path with
  | Some text => Ok text
  | None => Raise (FileNotFoundError path)
  end.

Fixpoint sample_texts_loop (disk : dict string) (fpc : list (string * string * string))
    (result : raw_corpus) : res raw_corpus :=
  match fpc with
  | [] => Ok result
  | (doc_name, path_to_doc, class_name) :: rest =>
      text ← open_read disk path_to_doc;
      sample_texts_loop disk rest (dict_set result doc_name (text, class_name))
  end.

Definition sample_texts (disk : dict string) (fpc : list (string * string * string))
    : res raw_corpus :=
  sample_texts_loop disk fpc [].

Fixpoint sample_texts_for_test_loop (disk : dict string) (fpc : list (string * string))
    (result : raw_corpus) : res raw_corpus :=
  match fpc with
  | [] => Ok result
  | (doc_name, path_to_doc) :: rest =>
      text ← open_read disk path_to_doc;
      sample_texts_for_test_loop disk rest (dict_set result doc_name (text, path_to_doc))
  end.

Definition sample_texts_for_test (disk : dict string) (fpc : list (string * string))
    : res raw_corpus :=
  sample_texts_for_test_loop disk fpc [].

(** ** The two pipelines *)

Section pipelines.
Variable tokenize : string → list string.
Variable disk : dict string.

Definition run (fpc : list (string * string * string))
    : res (list (list pynum * string) * doc_freq) :=
  dataset ← sample_texts disk fpc;
  '(docs, doc_freq) ← tokenize_dataset tokenize dataset;
  let doc_freq := cull_doc_freq doc_freq 50 (len (keys doc_freq)) in
  feature_vectors_class ← setup_tfidf_vectors docs doc_freq None false;
  Ok (feature_vectors_class, doc_freq).

(** The three [print] calls read entries 0, 20 and 45 of the result. *)
Definition run_test (fpc : list (string * string)) (doc_freq : doc_freq)
    : res (list (list pynum * string)) :=
  dataset_filepath ← sample_texts_for_test disk fpc;
  '(docs, doc_freq_testset) ← tokenize_dataset tokenize dataset_filepath;
  f_vectors_filepath ←
    setup_tfidf_vectors docs doc_freq (Some doc_freq_testset) true;
  _ ← list_getitem f_vectors_filepath 0;
  _ ← list_getitem f_vectors_filepath 20;
  _ ← list_getitem f_vectors_filepath 45;
  Ok f_vectors_filepath.
End pipelines.

(** ** [cull_doc_freq] on the object store

    Dicts and lists are objects, and a dict holds references to its values:
    [culled_df_map[word] = doc_freq_map[word]] stores in the new dict a
    reference to the very list the input dict refers to.  The store is the
    list of all objects, a reference is a position in it, and a new object
    goes at the end. *)

Module Heap.
Abbreviation loc := nat.

Inductive obj : Type :=
| ODict (entries : dict loc)
| OList (elems : list string).

Abbreviation store := (list obj).

Definition new (s : store) (o : obj) : store * loc := (s ++ [o], length s).

Definition dict_at (s : store) (d : loc) : res (dict loc) :=
  match s !! d with
  | Some (ODict entries) => Ok entries
  | _ => Raise TypeError
  end.

Definition list_at (s : store) (l : loc) : res (list string) :=
  match s !! l with
  | Some (OList elems) => Ok elems
  | _ => Raise TypeError
  end.

(** [d[k] = v] on the dict object at [d]. *)
Definition setitem (s : store) (d : loc) (k : string) (v : loc) : res store :=
  entries ← dict_at s d;
  Ok (<[d := ODict (dict_set entries k v)]> s).

Definition cull_step (doc_freq_map : loc) (low_num_docs high_num_docs : Z)
    (culled_df_map : loc) (s : store) (word : string) : res store :=
  entries ← dict_at s doc_freq_map;
  docs ← getitem entries word;
  elems ← list_at s docs;
  let num_occurrences := len elems in
  if bool_decide (num_occurrences < high_num_docs)
     && bool_decide (num_occurrences > low_num_docs)
  then setitem s culled_df_map word docs
  else Ok s.

Fixpoint cull_loop (doc_freq_map : loc) (low_num_docs high_num_docs : Z)
    (culled_df_map : loc) (s : store) (words : list string) : res store :=
  match words with
  | [] => Ok s
  | word :: rest =>
      s ← cull_step doc_freq_map low_num_docs high_num_docs culled_df_map s word;
      cull_loop doc_freq_map low_num_docs high_num_docs culled_df_map s rest
  end.

Definition cull_doc_freq (s : store) (doc_freq_map : loc)
    (low_num_docs high_num_docs : Z) : res (store * loc) :=
  let '(s, culled_df_map) := new s (ODict []) in
  entries ← dict_at s doc_freq_map;
  s ← cull_loop doc_freq_map low_num_docs high_num_docs culled_df_map s (keys entries);
  Ok (s, culled_df_map).

(** What a dict of the store holds, with the references followed: the
    document-frequency map an observer reads there. *)
Fixpoint resolve (s : store) (entries : dict loc) : option doc_freq :=
  match entries with
  | [] => Some []
  | (word, docs) :: rest =>
      match s !! docs with
      | Some (OList elems) => (λ r, (word, elems) :: r) <$> resolve s rest
      | _ => None
      end
  end.

Definition view (s : store) (d : loc) : option doc_freq :=
  match s !! d with
  | Some (ODict entries) => resolve s entries
  | _ => None
  end.
End Heap.

(** ** Sample data *)

(** Document [i] of a generated corpus is named by the character with code
    [48 + i]. *)
Definition nth_name (i : nat) : string :=
  String (Ascii.ascii_of_nat (48 + i)) "".

(** The three-document corpus of the TF-IDF scenario. *)
Definition pets_raw : raw_corpus :=
  [("doc1", ("cat dog cat", "A"));
   ("doc2", ("dog bird", "B"));
   ("doc3", ("cat bird bird", "A"))].

Definition pets : corpus :=
  [("doc1", (["cat"; "dog"; "cat"], "A"));
   ("doc2", (["dog"; "bird"], "B"));
   ("doc3", (["cat"; "bird"; "bird"], "A"))].

Definition pets_df : doc_freq :=
  [("cat", ["doc1"; "doc3"]); ("dog", ["doc1"; "doc2"]); ("bird", ["doc2"; "doc3"])].

(** A training corpus of 52 one-class documents: document [i] is the file
    [/corpus/<name i>] and reads [the <name i>]. *)
Definition news_fpc : list (string * string * string) :=
  (λ i, (nth_name i, String.app "/corpus/" (nth_name i), "A")) <$> seq 0 52.

Definition news_disk : dict string :=
  (λ i, (String.app "/corpus/" (nth_name i), String.app "the " (nth_name i))) <$> seq 0 52.

Definition news_dataset : raw_corpus :=
  (λ i, (nth_name i, (String.app "the " (nth_name i), "A"))) <$> seq 0 52.

(** What [run] returns on it. *)
Definition news_run : list (list pynum * string) * doc_freq :=
  Eval vm_compute in
    match run String.words news_disk news_fpc with
    | Ok r => r
    | Raise _ => ([], [])
    end.

(** A test manifest of two files. *)
Definition pets_test_fpc : list (string * string) :=
  [("doc1", "/test/doc1"); ("doc2", "/test/doc2")].

Definition pets_test_disk : dict string :=
  [("/test/doc1", "cat dog cat"); ("/test/doc2", "dog emu")].

(** A store with three document lists and, at position 3, a
    document-frequency map over them. *)
Definition pets_store : list Heap.obj :=
  [Heap.OList ["doc1"; "doc3"]; Heap.OList ["doc1"; "doc2"; "doc3"]; Heap.OList ["doc2"];
   Heap.ODict [("cat", 0%nat); ("dog", 1%nat); ("bird", 2%nat)]].

(** ** Specification-side definitions *)

(** The entry of [word] that survives the cull, if any. *)
Definition kept (doc_freq_map : doc_freq) (low high : Z) (word : string)
    : option (list string) :=
  match dict_get doc_freq_map word with
  | Some docs => if bool_decide (low < len docs < high) then Some docs else None
  | None => None
  end.

(** The corpus after tokenization: every text replaced by its tokens. *)
Definition tokenized (tokenize : string → list string) (dataset : raw_corpus) : corpus :=
  (λ e, (e.1, (tokenize e.2.1, e.2.2))) <$> dataset.

(** The names of the documents whose token sequence contains [token], in
    corpus order. *)
Definition docs_containing (token : string) (docs : corpus) : list string :=
  (filter (λ e, token ∈ e.2.1) docs).*1.

(** The TF-IDF weight [(1 + ln(tf)) * ln(N / df)]. *)
Definition tfidf_weight (tf N df : Z) : pynum :=
  PMul (PAdd (PInt 1) (PLog (PInt tf))) (PLog (PTrueDiv N df)).

(** The document-frequency map the idf term is read from: the test-set map
    in test mode when one is given and it is not empty, the primary map
    otherwise. *)
Definition df_source (doc_freq_map : doc_freq) (doc_freq_map_testset : option doc_freq)
    (test_mode : bool) : doc_freq :=
  match test_mode, doc_freq_map_testset with
  | true, Some (e :: m) => e :: m
  | _, _ => doc_freq_map
  end.

(** The same choice as the specification words it: the test-set map in test
    mode whenever one is supplied. *)
Definition df_source_when_supplied (doc_freq_map : doc_freq)
    (doc_freq_map_testset : option doc_freq) (test_mode : bool) : doc_freq :=
  match test_mode, doc_freq_map_testset with
  | true, Some m => m
  | _, _ => doc_freq_map
  end.

(** [docs] with every occurrence of [token] removed from the token sequence
    of each document selected by [sel]. *)
Definition remove_token (sel : string → bool) (token : string) (docs : corpus) : corpus :=
  (λ e, if sel e.1 then (e.1, (filter (λ t, t ≠ token) e.2.1, e.2.2)) else e) <$> docs.

(** ** Class names and the documents of a class

    [self.fpc] of a training-mode object: the manifest entries
    [[doc_name, path_to_doc, class_name]]. *)

Fixpoint get_class_names_loop (fpc : list (string * string * string))
    (result : list string) : list string :=
  match fpc with
  | [] => result
  | (_, _, candidate_class_name) :: rest =>
      if bool_decide (candidate_class_name ∉ result)
      then get_class_names_loop rest (result ++ [candidate_class_name])
      else get_class_names_loop rest result
  end.

Definition get_class_names (fpc : list (string * string * string)) : list string :=
  get_class_names_loop fpc [].

(** [LIMIT != None and len(result) > LIMIT] *)
Definition over_limit (LIMIT : option Z) (result : list (string * string * string)) : bool :=
  match LIMIT with
  | Some n => bool_decide (len result > n)
  | None => false
  end.

(** The loop stops ([break]) at the first entry of the class that arrives
    when the limit is already exceeded. *)
Fixpoint get_texts_for_class_loop (class_name : string) (LIMIT : option Z)
    (fpc result : list (string * string * string)) : list (string * string * string) :=
  match fpc with
  | [] => result
  | filename_path_classname :: rest =>
      if bool_decide (filename_path_classname.2 = class_name) then
        if over_limit LIMIT result then result
        else get_texts_for_class_loop class_name LIMIT rest
               (result ++ [filename_path_classname])
      else get_texts_for_class_loop class_name LIMIT rest result
  end.

Definition get_texts_for_class (fpc : list (string * string * string))
    (class_name : string) (LIMIT : option Z) : list (string * string * string) :=
  get_texts_for_class_loop class_name LIMIT fpc [].

(** ** More specification-side definitions *)

(** The distinct elements of a list, each at its first occurrence. *)
Fixpoint distinct (l : list string) : list string :=
  match l with
  | [] => []
  | x :: rest => x :: filter (λ y, y ≠ x) (distinct rest)
  end.

(** Append [x] unless it is there already. *)
Definition add_new (acc : list string) (x : string) : list string :=
  if decide (x ∈ acc) then acc else acc ++ [x].

(** Every token occurrence of a corpus, document after document. *)
Definition all_tokens (docs : corpus) : list string :=
  concat ((λ e, e.2.1) <$> docs).

(** Two corpora with the same names and labels whose token sequences are
    rearrangements of each other. *)
Definition same_token_bags (docs docs' : corpus) : Prop :=
  Forall2 (λ e e' : string * (list string * string),
             e.1 = e'.1 ∧ e.2.1 ≡ₚ e'.2.1 ∧ e.2.2 = e'.2.2) docs docs'.

(** ** More sample data *)

(** A manifest with a repeated file name and three classes. *)
Definition mixed_fpc : list (string * string * string) :=
  [("a.txt", "/x/a.txt", "sports"); ("b.txt", "/x/b.txt", "news");
   ("a.txt", "/y/a.txt", "news"); ("c.txt", "/x/c.txt", "sports");
   ("d.txt", "/x/d.txt", "arts"); ("e.txt", "/x/e.txt", "sports")].

Definition mixed_disk : dict string :=
  [("/x/a.txt", "goal goal"); ("/x/b.txt", "vote"); ("/y/a.txt", "vote poll");
   ("/x/c.txt", "goal"); ("/x/d.txt", "paint"); ("/x/e.txt", "run goal")].

(** A test manifest of 46 files: file [i] reads [cat <name i>]. *)
Definition ads_fpc : list (string * string) :=
  (λ i, (nth_name i, String.app "/ads/" (nth_name i))) <$> seq 0 46.

Definition ads_disk : dict string :=
  (λ i, (String.app "/ads/" (nth_name i), String.app "cat " (nth_name i))) <$> seq 0 46.

Definition ads_dataset : raw_corpus :=
  (λ i, (nth_name i, (String.app "cat " (nth_name i), String.app "/ads/" (nth_name i))))
    <$> seq 0 46.

(** A store whose document-frequency map, at position 2, holds two
    references to lists. *)
Definition small_store : list Heap.obj :=
  [Heap.OList ["d1"; "d2"]; Heap.OList ["d1"];
   Heap.ODict [("cat", 0%nat); ("dog", 1%nat)]].

(** * Properties *)

(** ** Dicts *)

Section dict_facts.
Context {V : Type}.
Implicit Types (d : dict V) (k : string) (v : V).

Lemma dict_get_set d k v k' :
  dict_get (dict_set d k v) k' = if decide (k = k') then Some v else dict_get d k'.
Proof.
  induction d as [|[k0 v0] d IH]; simpl.
  - by repeat case_decide.
  - destruct (decide (k0 = k)) as [->|Hne]; simpl.
    + by repeat case_decide.
    + rewrite IH. repeat case_decide; congruence.
Qed.

Lemma dict_get_None d k : dict_get d k = None ↔ k ∉ keys d.
Proof.
  unfold keys. induction d as [|[k0 v0] d IH]; simpl.
  - split; [intros _; apply not_elem_of_nil | done].
  - rewrite not_elem_of_cons. case_decide as Hk.
  + subst. split; [done | by intros [? _]].
  + rewrite IH. split; [intros ?; split; [congruence | done] | by intros [_ ?]].
Qed.

Lemma dict_get_is_Some d k : is_Some (dict_get d k) ↔ k ∈ keys d.
Proof.
  rewrite <-not_eq_None_Some, dict_get_None.
  split; [apply dec_stable | auto].
Qed.

Lemma dict_get_elem_of d k v : dict_get d k = Some v → (k, v) ∈ d.
Proof.
  induction d as [|[k0 v0] d IH]; simpl; [done|].
  case_decide; subst.
  - intros [= ->]. left.
  - intros ?. right. auto.
Qed.

Lemma dict_get_wf d k v : dict_wf d → (k, v) ∈ d → dict_get d k = Some v.
Proof.
  unfold dict_wf, keys. induction d as [|[k0 v0] d IH]; simpl.
  - by intros _ ?%elem_of_nil.
  - rewrite NoDup_cons. intros [Hk0 Hd]. rewrite elem_of_cons.
    intros [[= -> ->]|Hin]; [by rewrite decide_True|].
    rewrite decide_False; [auto|]. intros ->. apply Hk0.
    apply list_elem_of_fmap. by exists (k, v).
Qed.

Lemma keys_dict_set d k v :
  keys (dict_set d k v) = if decide (k ∈ keys d) then keys d else keys d ++ [k].
Proof.
  unfold keys. induction d as [|[k0 v0] d IH].
  - case_decide as Hin; [by apply elem_of_nil in Hin | done].
  - cbn [dict_set]. destruct (decide (k0 = k)) as [->|Hne].
    + rewrite decide_True; [done | left].
    + rewrite !fmap_cons, IH. simpl. destruct (decide (k ∈ d.*1)) as [Hin|Hin].
      * rewrite decide_True; [done | by right].
      * rewrite decide_False; [done|]. rewrite not_elem_of_cons. naive_solver.
Qed.

Lemma dict_set_fresh d k v : k ∉ keys d → dict_set d k v = d ++ [(k, v)].
Proof.
  unfold keys. induction d as [|[k0 v0] d IH]; simpl; [done|].
  rewrite not_elem_of_cons. intros [Hne Hin].
  rewrite decide_False by done. by rewrite IH.
Qed.

Lemma dict_set_wf d k v : dict_wf d → dict_wf (dict_set d k v).
Proof.
  unfold dict_wf. rewrite keys_dict_set. case_decide; [done|].
  intros Hd. apply NoDup_app. split_and!; [done | | apply NoDup_singleton].
  intros x Hx ->%list_elem_of_singleton. done.
Qed.
End dict_facts.

(** ** Vocabulary culling *)

Lemma cull_step_get m low high acc word w :
  dict_get (cull_step m low high acc word) w =
    if decide (word = w) then from_option Some (dict_get acc w) (kept m low high w)
    else dict_get acc w.
Proof.
  unfold cull_step, kept. case_decide as Hw.
  - subst w. destruct (dict_get m word) as [docs|]; simpl; [|done].
    repeat case_bool_decide; simpl; rewrite ?dict_get_set, ?decide_True by done;
      first [done | lia].
  - destruct (dict_get m word) as [docs|]; simpl; [|done].
    repeat case_bool_decide; simpl; rewrite ?dict_get_set, ?decide_False by done; done.
Qed.

Lemma cull_fold_get m low high words acc w :
  dict_get (foldl (cull_step m low high) acc words) w =
    if decide (w ∈ words) then from_option Some (dict_get acc w) (kept m low high w)
    else dict_get acc w.
Proof.
  revert acc. induction words as [|word words IH]; intros acc; cbn [foldl].
  - case_decide as Hin; [by apply elem_of_nil in Hin | done].
  - rewrite IH, cull_step_get.
    destruct (decide (word = w)) as [->|Hne].
    + rewrite (decide_True (P := w ∈ w :: words)) by left.
      case_decide; [|done]. by destruct (kept m low high w).
    + destruct (decide (w ∈ words)) as [Hin|Hin].
      * rewrite decide_True; [done | by right].
      * rewrite decide_False; [done|]. rewrite not_elem_of_cons. naive_solver.
Qed.

Lemma cull_doc_freq_get m low high w :
  dict_get (cull_doc_freq m low high) w = kept m low high w.
Proof.
  unfold cull_doc_freq. rewrite cull_fold_get. simpl.
  case_decide as Hin; [by destruct (kept m low high w)|].
  apply dict_get_None in Hin. unfold kept. by rewrite Hin.
Qed.

Lemma cull_fold_filter m low high rest acc :
  NoDup (keys acc ++ keys rest) →
  (∀ k v, (k, v) ∈ rest → dict_get m k = Some v) →
  foldl (cull_step m low high) acc (keys rest) =
    acc ++ filter (λ kv, low < len kv.2 < high) rest.
Proof.
  revert acc. induction rest as [|[k v] rest IH]; intros acc Hnd Hm.
  - simpl. by rewrite app_nil_r.
  - change (keys ((k, v) :: rest)) with (k :: keys rest) in *. cbn [foldl].
    assert (dict_get m k = Some v) as Hk by (apply Hm; left).
    assert (k ∉ keys acc) as Hfresh.
    { intros Hin. apply NoDup_app in Hnd as (_ & Hdisj & _).
      apply (Hdisj k Hin). left. }
    assert (∀ acc' : doc_freq, keys acc' = keys acc ++ [k] ∨ keys acc' = keys acc →
      NoDup (keys acc' ++ keys rest)) as Hnd'.
    { intros acc' [->| ->].
      - by rewrite <-app_assoc.
      - apply NoDup_app in Hnd as (Ha & Hdisj & Hr).
        apply NoDup_cons in Hr as [_ Hr]. apply NoDup_app. split_and!; [done| |done].
        intros x Hx Hx'. apply (Hdisj x Hx). by right. }
    unfold cull_step at 2. rewrite Hk. cbn zeta.
    destruct (decide (low < len v < high)) as [Hr|Hr].
    + rewrite filter_cons_True by done.
      rewrite !bool_decide_eq_true_2 by lia. simpl.
      rewrite IH.
      * rewrite dict_set_fresh by done. by rewrite <-app_assoc.
      * apply Hnd'. left. rewrite keys_dict_set. by rewrite decide_False.
      * intros. apply Hm. by right.
    + rewrite filter_cons_False by done.
      replace (bool_decide (len v < high) && bool_decide (len v > low)) with false.
      * apply IH; [apply Hnd'; by right|]. intros. apply Hm. by right.
      * symmetry. apply andb_false_iff.
        destruct (decide (len v < high)); [right|left]; apply bool_decide_eq_false_2; lia.
Qed.

(** On a dict, the cull is the filter that keeps the entries in range, in
    their order. *)
Lemma cull_doc_freq_filter m low high :
  dict_wf m →
  cull_doc_freq m low high = filter (λ kv, low < len kv.2 < high) m.
Proof.
  intros Hwf. unfold cull_doc_freq.
  rewrite cull_fold_filter; [done|done|]. intros. by apply dict_get_wf.
Qed.

Lemma cull_doc_freq_wf m low high : dict_wf (cull_doc_freq m low high).
Proof.
  unfold cull_doc_freq.
  assert (∀ words (acc : doc_freq),
    dict_wf acc → dict_wf (foldl (cull_step m low high) acc words)) as Hfold.
  { induction words as [|word words IH]; intros acc Hacc; simpl; [done|].
    apply IH. unfold cull_step. destruct (dict_get m word); [|done].
    case_match; [by apply dict_set_wf | done]. }
  apply Hfold, NoDup_nil_2.
Qed.

Lemma cull_doc_freq_strict_range_iff m low high word docs :
  dict_get (cull_doc_freq m low high) word = Some docs ↔
  dict_get m word = Some docs ∧ low < len docs < high.
Proof.
  rewrite cull_doc_freq_get. unfold kept.
  destruct (dict_get m word) as [docs'|]; [|by split; [|intros [? _]]].
  case_bool_decide as Hr.
  - split; [by intros [= ->] | by intros [? _]].
  - split; [done | intros [[= ->] ?]; done].
Qed.

(** C3: [cull_doc_freq] keeps exactly the entries whose document count [c]
    satisfies [low < c < high], both bounds strict: an entry is in the result
    if and only if it is in the input with a count in range; a count equal to
    [low] or to [high] is left out; and when [low >= high] the result is the
    empty dict, with no error. *)
Theorem cull_doc_freq_strict_range (doc_freq_map : doc_freq) (low high : Z) :
  (∀ word docs,
     dict_get (cull_doc_freq doc_freq_map low high) word = Some docs ↔
     dict_get doc_freq_map word = Some docs ∧ low < len docs < high) ∧
  (∀ word docs,
     dict_get doc_freq_map word = Some docs → len docs = low ∨ len docs = high →
     dict_get (cull_doc_freq doc_freq_map low high) word = None) ∧
  (high ≤ low → cull_doc_freq doc_freq_map low high = []).
Proof.
  assert (∀ word docs,
     dict_get (cull_doc_freq doc_freq_map low high) word = Some docs ↔
     dict_get doc_freq_map word = Some docs ∧ low < len docs < high) as Hiff.
  { intros word docs. apply cull_doc_freq_strict_range_iff. }
  split_and!; [done | |].
  - intros word docs Hget Hlen. rewrite cull_doc_freq_get. unfold kept.
    rewrite Hget. rewrite bool_decide_eq_false_2; [done | lia].
  - intros Hlh. destruct (cull_doc_freq doc_freq_map low high) as [|[word docs] rest];
      [done|].
    assert (dict_get ((word, docs) :: rest) word = Some docs) as Hw.
    { simpl. by rewrite decide_True. }
    apply Hiff in Hw. lia.
Qed.

(** ** Tokenization and document frequencies *)

Section tokenize_facts.
Variable tokenize : string → list string.

Lemma record_tokens_cons doc_name token rest seen (m : doc_freq) :
  record_tokens doc_name (token :: rest) seen m =
    if bool_decide (token ∉ seen)
    then record_tokens doc_name rest (seen ++ [token])
           (dict_set m token (default [] (dict_get m token) ++ [doc_name]))
    else record_tokens doc_name rest seen m.
Proof. simpl. case_bool_decide; [|done]. by destruct (dict_get m token). Qed.

(** After the tokens of one document are recorded, the document's name has
    been appended once to the list of every token that is new to the
    document, and nothing else has changed. *)
Lemma record_tokens_get doc_name tokens seen (m : doc_freq) t :
  dict_get (record_tokens doc_name tokens seen m) t =
    if decide (t ∈ tokens ∧ t ∉ seen)
    then Some (default [] (dict_get m t) ++ [doc_name])
    else dict_get m t.
Proof.
  revert seen m. induction tokens as [|token rest IH]; intros seen m.
  - cbn [record_tokens]. rewrite decide_False; [done|].
    intros [H _]. by apply elem_of_nil in H.
  - rewrite record_tokens_cons. case_bool_decide as Hseen.
    + rewrite IH, dict_get_set. destruct (decide (token = t)) as [->|Hne].
      * rewrite decide_False, decide_True; [done| |].
        -- split; [left | done].
        -- intros [_ Hn]. apply Hn, elem_of_app. right. left.
      * destruct (decide (t ∈ rest ∧ t ∉ seen)) as [[Hin Hn]|Hn].
        -- rewrite !decide_True; [done| |].
           ++ split; [by right | done].
           ++ split; [done|]. rewrite elem_of_app, list_elem_of_singleton. intros [?|?]; done.
        -- rewrite !decide_False; [done| |].
           ++ intros [Hin Hs]. apply Hn. split; [|done].
              apply elem_of_cons in Hin as [?|?]; done.
           ++ intros [Hin Hs]. apply Hn. split; [done|].
              intros ?. apply Hs, elem_of_app. by left.
    + rewrite IH.
      destruct (decide (token = t)) as [->|Hne].
      * rewrite !decide_False; [done| |]; by intros [_ ?].
      * destruct (decide (t ∈ rest ∧ t ∉ seen)) as [[Hin Hn]|Hn].
        -- rewrite decide_True; [done|]. split; [by right | done].
        -- rewrite decide_False; [done|]. intros [Hin Hs]. apply Hn. split; [|done].
           apply elem_of_cons in Hin as [?|?]; done.
Qed.

Lemma record_tokens_wf doc_name tokens seen (m : doc_freq) :
  dict_wf m → dict_wf (record_tokens doc_name tokens seen m).
Proof.
  revert seen m. induction tokens as [|token rest IH]; intros seen m Hm; [done|].
  rewrite record_tokens_cons. case_bool_decide; [|by apply IH].
  by apply IH, dict_set_wf.
Qed.

Lemma docs_containing_cons t doc_name doc c (docs : corpus) :
  docs_containing t ((doc_name, (doc, c)) :: docs) =
    if decide (t ∈ doc) then doc_name :: docs_containing t docs
    else docs_containing t docs.
Proof.
  unfold docs_containing. case_decide.
  - by rewrite filter_cons_True.
  - by rewrite filter_cons_False.
Qed.

(** The loop over the documents returns the tokenized corpus and appends, to
    the list of each token, the documents that contain it. *)
Lemma tokenize_loop_spec N i (entries : raw_corpus) (m : doc_freq) :
  N ≠ 0 →
  ∃ dfm, tokenize_loop tokenize N i entries m = Ok (tokenized tokenize entries, dfm) ∧
    (dict_wf m → dict_wf dfm) ∧
    ∀ t, dict_get dfm t =
      if decide (docs_containing t (tokenized tokenize entries) = [])
      then dict_get m t
      else Some (default [] (dict_get m t) ++ docs_containing t (tokenized tokenize entries)).
Proof.
  intros HN. revert i m. induction entries as [|[doc_name [text c]] rest IH]; intros i m.
  - exists m. split_and!; [done..|]. intros t. by rewrite decide_True.
  - cbn [tokenize_loop]. unfold print_loading_bar. rewrite decide_False by done.
    destruct (IH (i + 1) (record_tokens doc_name (tokenize text) [] m)) as (dfm & -> & Hwf & Hget).
    exists dfm. split_and!; [done| |].
    + intros Hm. by apply Hwf, record_tokens_wf.
    + intros t. rewrite Hget, record_tokens_get.
      change (tokenized tokenize ((doc_name, (text, c)) :: rest))
        with ((doc_name, (tokenize text, c)) :: tokenized tokenize rest).
      rewrite docs_containing_cons.
      destruct (decide (t ∈ tokenize text)) as [Hin|Hin].
      * rewrite (decide_True (P := _ ∧ _)) by (split; [done | apply not_elem_of_nil]).
        rewrite (decide_False (P := _ :: _ = [])) by done. simpl.
        case_decide as Hr; [by rewrite Hr|]. by rewrite <-app_assoc.
      * rewrite (decide_False (P := _ ∧ _)) by (by intros [? _]). done.
Qed.

(** [tokenize_dataset] on a corpus that is not empty: the result, in full. *)
Lemma tokenize_dataset_spec (dataset : raw_corpus) :
  dataset ≠ [] →
  ∃ dfm, tokenize_dataset tokenize dataset = Ok (tokenized tokenize dataset, dfm) ∧
    dict_wf dfm ∧
    ∀ t, dict_get dfm t =
      if decide (docs_containing t (tokenized tokenize dataset) = []) then None
      else Some (docs_containing t (tokenized tokenize dataset)).
Proof.
  intros Hne. unfold tokenize_dataset.
  assert (len (keys dataset) ≠ 0) as HN.
  { unfold len, keys. rewrite length_fmap. destruct dataset; [done | simpl; lia]. }
  unfold print_loading_bar. rewrite decide_False by done.
  destruct (tokenize_loop_spec (len (keys dataset)) 0 dataset [] HN) as (dfm & -> & Hwf & Hget).
  exists dfm. split_and!; [done | apply Hwf, NoDup_nil_2 | done].
Qed.

Lemma tokenize_dataset_Ok (dataset : raw_corpus) docs dfm :
  tokenize_dataset tokenize dataset = Ok (docs, dfm) →
  dataset ≠ [] ∧ docs = tokenized tokenize dataset.
Proof.
  intros H. destruct dataset as [|e rest]; [done|]. split; [done|].
  destruct (tokenize_dataset_spec (e :: rest)) as (dfm' & H' & _); [done|]. congruence.
Qed.

Lemma keys_tokenized (dataset : raw_corpus) :
  keys (tokenized tokenize dataset) = keys dataset.
Proof. unfold keys, tokenized. rewrite <-list_fmap_compose. by apply list_fmap_ext. Qed.

Lemma docs_containing_sublist t (docs : corpus) :
  docs_containing t docs `sublist_of` keys docs.
Proof. unfold docs_containing, keys. apply fmap_sublist, sublist_filter. Qed.

Lemma elem_of_docs_containing t (docs : corpus) doc_name :
  doc_name ∈ docs_containing t docs ↔ ∃ doc c, (doc_name, (doc, c)) ∈ docs ∧ t ∈ doc.
Proof.
  unfold docs_containing. rewrite list_elem_of_fmap. split.
  - intros ([n [doc c]] & -> & [Ht Hin]%list_elem_of_filter). by exists doc, c.
  - intros (doc & c & Hin & Ht). exists (doc_name, (doc, c)). split; [done|].
    by apply list_elem_of_filter.
Qed.
End tokenize_facts.

Lemma count_NoDup (names : list string) (x : string) :
  NoDup names → count names x = if decide (x ∈ names) then 1 else 0.
Proof.
  unfold count, len. induction names as [|y names IH]; intros Hnd.
  - rewrite decide_False; [done | apply not_elem_of_nil].
  - apply NoDup_cons in Hnd as [Hy Hnd]. specialize (IH Hnd).
    destruct (decide (y = x)) as [->|Hne].
    + rewrite filter_cons_True by done. rewrite decide_True by left.
      rewrite decide_False in IH by done. simpl length. lia.
    + rewrite filter_cons_False by done. rewrite IH.
      destruct (decide (x ∈ names)) as [Hin|Hin].
      * rewrite decide_True; [done | by right].
      * rewrite decide_False; [done|]. rewrite not_elem_of_cons. by split.
Qed.

(** C4: in the document-frequency map returned by [tokenize_dataset], the
    list of every token holds each document name at most once, and a
    document whose token sequence contains the token, however many times,
    is counted exactly once in it (a document without the token is not
    counted). *)
Theorem tokenize_dataset_df_set_based (tokenize : string → list string)
    (dataset : raw_corpus) (docs : corpus) (doc_freq_map : doc_freq) :
  dict_wf dataset →
  tokenize_dataset tokenize dataset = Ok (docs, doc_freq_map) →
  ∀ token names, dict_get doc_freq_map token = Some names →
    NoDup names ∧
    ∀ doc_name text class_name, (doc_name, (text, class_name)) ∈ dataset →
      count names doc_name = if decide (token ∈ tokenize text) then 1 else 0.
Proof.
  intros Hwf Htok token names Hget.
  apply tokenize_dataset_Ok in Htok as Hdocs. destruct Hdocs as [Hne ->].
  destruct (tokenize_dataset_spec tokenize dataset Hne) as (dfm & Htok' & _ & Hspec).
  rewrite Htok in Htok'. injection Htok' as <-.
  rewrite Hspec in Hget. case_decide; [done|]. injection Hget as <-.
  assert (NoDup (docs_containing token (tokenized tokenize dataset))) as Hnd.
  { eapply sublist_NoDup; [|apply docs_containing_sublist].
    by rewrite keys_tokenized. }
  split; [done|]. intros doc_name text class_name Hin.
  rewrite count_NoDup by done.
  destruct (decide (token ∈ tokenize text)) as [Ht|Ht].
  - rewrite decide_True; [done|]. apply elem_of_docs_containing.
    exists (tokenize text), class_name. split; [|done].
    unfold tokenized. apply list_elem_of_fmap. by exists (doc_name, (text, class_name)).
  - rewrite decide_False; [done|]. intros (doc & c & Hin' & Ht')%elem_of_docs_containing.
    unfold tokenized in Hin'. apply list_elem_of_fmap in Hin' as ([n [text' c']] & [= -> -> ->] & Hin').
    simpl in Ht'. apply (dict_get_wf _ _ _ Hwf) in Hin, Hin'. congruence.
Qed.

Lemma tokenize_dataset_df_set_based_witness :
  NoDup ["doc1"; "doc3"] ∧
  ∀ doc_name text class_name, (doc_name, (text, class_name)) ∈ pets_raw →
    count ["doc1"; "doc3"] doc_name = if decide ("cat" ∈ String.words text) then 1 else 0.
Proof.
  apply (tokenize_dataset_df_set_based String.words pets_raw pets pets_df).
  - compute_done.
  - vm_compute. reflexivity.
  - vm_compute. reflexivity.
Defined.

(** C10: on a corpus without documents [tokenize_dataset] returns nothing: the
    first call of the progress bar divides by the document count, which is
    zero, and raises [ZeroDivisionError]; [run] and [run_test] on an empty
    manifest fail the same way. *)
Theorem empty_corpus_zero_division (tokenize : string → list string)
    (disk : dict string) (doc_freq_map : doc_freq) :
  print_loading_bar 0 (len (keys ([] : raw_corpus))) = Raise ZeroDivisionError ∧
  tokenize_dataset tokenize [] = Raise ZeroDivisionError ∧
  run tokenize disk [] = Raise ZeroDivisionError ∧
  run_test tokenize disk [] doc_freq_map = Raise ZeroDivisionError.
Proof. by split_and!. Qed.

(** ** TF-IDF vectors *)

Lemma list_index_lookup (l : list string) x i :
  list_index l x = Some i → l !! i = Some x.
Proof.
  revert i. induction l as [|y l IH]; intros i; simpl; [done|].
  case_decide as Hy; [by intros [= <-]; subst|].
  destruct (list_index l x) as [j|]; simpl; [|done].
  intros [= <-]. by apply IH.
Qed.

Lemma list_index_elem_of (l : list string) x :
  x ∈ l → ∃ i, list_index l x = Some i.
Proof.
  induction l as [|y l IH]; [by intros ?%elem_of_nil|].
  intros Hin. simpl. case_decide as Hy; [by eexists|].
  apply elem_of_cons in Hin as [->|Hin]; [done|].
  destruct (IH Hin) as [i ->]. by eexists.
Qed.

Lemma count_pos (doc : list string) token : token ∈ doc → 0 < count doc token.
Proof.
  intros Hin. unfold count, len.
  assert (token ∈ filter (λ y, y = token) doc) as Hf by (by apply list_elem_of_filter).
  destruct (filter (λ y, y = token) doc); [by apply elem_of_nil in Hf | simpl; lia].
Qed.

(** The idf term of every weight is read from [df_source]. *)
Lemma token_weight_source N (dfm : doc_freq) ts tm doc token :
  token_weight N dfm ts tm doc token =
    (names ← getitem (df_source dfm ts tm) token;
     log_idf ← log_ratio N (len names);
     Ok (PMul (if bool_decide (count doc token > 0)
               then PAdd (PInt 1) (PLog (PInt (count doc token))) else PFloat0)
              log_idf)).
Proof.
  unfold token_weight, df_source.
  destruct tm; [|simpl; by destruct (getitem dfm token)].
  destruct ts as [[|e m]|]; simpl.
  - by destruct (getitem dfm token).
  - by destruct (getitem (e :: m) token).
  - by destruct (getitem dfm token).
Qed.

Lemma log_ratio_Ok n d x :
  log_ratio n d = Ok x ↔ 0 < n * d ∧ x = PLog (PTrueDiv n d).
Proof.
  unfold log_ratio. repeat case_decide; split; try done; try lia.
  - intros [= <-]. split; [lia | done].
  - by intros [_ ->].
Qed.

Lemma token_weight_Ok N (dfm : doc_freq) ts tm doc token w :
  token ∈ doc →
  token_weight N dfm ts tm doc token = Ok w ↔
    ∃ names, dict_get (df_source dfm ts tm) token = Some names ∧
      0 < N * len names ∧ w = tfidf_weight (count doc token) N (len names).
Proof.
  intros Hin%count_pos. rewrite token_weight_source. unfold getitem.
  rewrite bool_decide_eq_true_2 by lia.
  destruct (dict_get (df_source dfm ts tm) token) as [names|]; simpl.
  - destruct (log_ratio N (len names)) as [x|e] eqn:E; simpl.
    + apply log_ratio_Ok in E as [Hpos ->]. split.
      * intros [= <-]. by exists names.
      * intros (? & [= <-] & _ & ->). done.
    + split; [done|]. intros (? & [= <-] & Hpos & _).
      assert (log_ratio N (len names) = Ok (PLog (PTrueDiv N (len names)))) as E'
        by (by apply log_ratio_Ok).
      congruence.
  - split; [done|]. by intros (? & ? & _).
Qed.

Section fill_vector_facts.
Variables (vocab : list string) (N : Z) (dfm : doc_freq) (ts : option doc_freq) (tm : bool).
Variable doc : list string.

Lemma fill_vector_cons token rest fv :
  fill_vector vocab N dfm ts tm doc (token :: rest) fv =
    if bool_decide (token ∈ vocab) then
      w ← token_weight N dfm ts tm doc token;
      i ← index vocab token;
      fv' ← list_setitem fv i w;
      fill_vector vocab N dfm ts tm doc rest fv'
    else fill_vector vocab N dfm ts tm doc rest fv.
Proof. done. Qed.

(** One step of the loop that succeeds writes the weight at the token's
    vocabulary index. *)
Lemma fill_vector_step token rest fv fv' :
  token ∈ doc → token ∈ vocab →
  fill_vector vocab N dfm ts tm doc (token :: rest) fv = Ok fv' →
  ∃ names i,
    dict_get (df_source dfm ts tm) token = Some names ∧ 0 < N * len names ∧
    list_index vocab token = Some i ∧ (i < length fv)%nat ∧
    fill_vector vocab N dfm ts tm doc rest
      (<[i := tfidf_weight (count doc token) N (len names)]> fv) = Ok fv'.
Proof.
  intros Hdoc Hvocab. rewrite fill_vector_cons, bool_decide_eq_true_2 by done.
  destruct (token_weight N dfm ts tm doc token) as [w|] eqn:Ew; [|done].
  apply token_weight_Ok in Ew as (names & Hnames & Hpos & ->); [|done].
  unfold index. destruct (list_index vocab token) as [i|]; [|done].
  simpl. unfold list_setitem. case_decide; [|done]. simpl. intros Hrest.
  by exists names, i.
Qed.

Lemma fill_vector_length tokens fv fv' :
  fill_vector vocab N dfm ts tm doc tokens fv = Ok fv' → length fv' = length fv.
Proof.
  revert fv. induction tokens as [|token rest IH]; intros fv; [by intros [= ->]|].
  rewrite fill_vector_cons. case_bool_decide; [|apply IH].
  destruct (token_weight N dfm ts tm doc token) as [w|]; [|done].
  destruct (index vocab token) as [i|]; [|done]. simpl.
  unfold list_setitem. case_decide; [|done]. simpl.
  intros ->%IH. apply length_insert.
Qed.

(** The loop leaves alone every position that is not the vocabulary index
    of one of the tokens it visits. *)
Lemma fill_vector_untouched tokens fv fv' j :
  fill_vector vocab N dfm ts tm doc tokens fv = Ok fv' →
  (∀ t, t ∈ tokens → list_index vocab t ≠ Some j) →
  fv' !! j = fv !! j.
Proof.
  revert fv. induction tokens as [|token rest IH]; intros fv; [by intros [= ->]|].
  rewrite fill_vector_cons. intros Hfill Hj.
  assert (∀ t, t ∈ rest → list_index vocab t ≠ Some j) as Hj' by (intros; apply Hj; by right).
  case_bool_decide; [|by apply IH].
  destruct (token_weight N dfm ts tm doc token) as [w|]; [|done].
  unfold index in Hfill. destruct (list_index vocab token) as [i|] eqn:Ei; [|done].
  simpl in Hfill. unfold list_setitem in Hfill. case_decide; [|done]. simpl in Hfill.
  rewrite (IH _ Hfill Hj'). apply list_lookup_insert_ne.
  intros ->. by apply (Hj token); [left|].
Qed.

(** After the loop, the position of every visited vocabulary token holds
    its weight. *)
Lemma fill_vector_weight tokens fv fv' token :
  fill_vector vocab N dfm ts tm doc tokens fv = Ok fv' →
  (∀ t, t ∈ tokens → t ∈ doc) →
  token ∈ tokens → token ∈ vocab →
  ∃ names i,
    dict_get (df_source dfm ts tm) token = Some names ∧ 0 < N * len names ∧
    list_index vocab token = Some i ∧
    fv' !! i = Some (tfidf_weight (count doc token) N (len names)).
Proof.
  revert fv. induction tokens as [|t rest IH]; intros fv Hfill Hdoc Hin Hvocab;
    [by apply elem_of_nil in Hin|].
  assert (∀ t, t ∈ rest → t ∈ doc) as Hdoc' by (intros; apply Hdoc; by right).
  destruct (decide (token ∈ rest)) as [Hrest|Hrest].
  { rewrite fill_vector_cons in Hfill. case_bool_decide; [|by eapply IH].
    destruct (token_weight N dfm ts tm doc t) as [w|]; [|done].
    destruct (index vocab t) as [i|]; [|done]. simpl in Hfill.
    destruct (list_setitem fv i w) as [fv1|]; [|done]. by eapply IH. }
  apply elem_of_cons in Hin as [<-|?]; [|done].
  apply fill_vector_step in Hfill as (names & i & Hnames & Hpos & Hi & Hlt & Hfill);
    [|apply Hdoc; left|done].
  exists names, i. split_and!; [done..|].
  rewrite (fill_vector_untouched _ _ _ i Hfill).
  - by apply list_lookup_insert_eq.
  - intros t Ht Hti. apply list_index_lookup in Hi, Hti. congruence.
Qed.

(** The loop succeeds when every vocabulary token it visits has a
    non-empty entry in [df_source] and the corpus is not empty. *)
Lemma fill_vector_succeeds tokens fv :
  0 < N → length fv = length vocab →
  (∀ t, t ∈ tokens → t ∈ vocab →
     ∃ names, dict_get (df_source dfm ts tm) t = Some names ∧ names ≠ []) →
  (∀ t, t ∈ tokens → t ∈ doc) →
  ∃ fv', fill_vector vocab N dfm ts tm doc tokens fv = Ok fv'.
Proof.
  intros HN. revert fv. induction tokens as [|token rest IH]; intros fv Hlen Hdf Hdoc;
    [by eexists|].
  assert (∀ fv1, length fv1 = length vocab →
    ∃ fv', fill_vector vocab N dfm ts tm doc rest fv1 = Ok fv') as Hrest.
  { intros fv1 Hlen1. apply IH; [done| |]; intros; [apply Hdf|apply Hdoc]; by try right. }
  rewrite fill_vector_cons. case_bool_decide as Hvocab; [|by apply Hrest].
  destruct (Hdf token) as (names & Hnames & Hne); [left|done|].
  assert (token_weight N dfm ts tm doc token =
          Ok (tfidf_weight (count doc token) N (len names))) as ->.
  { apply token_weight_Ok; [apply Hdoc; left|]. exists names. split_and!; [done| |done].
    unfold len. destruct names; [done | simpl; lia]. }
  destruct (list_index_elem_of _ _ Hvocab) as [i Hi]. unfold index. rewrite Hi. simpl.
  apply list_index_lookup, lookup_lt_Some in Hi.
  unfold list_setitem. rewrite decide_True by lia. simpl.
  apply Hrest. by rewrite length_insert.
Qed.
End fill_vector_facts.

Section setup_facts.
Variables (dfm : doc_freq) (ts : option doc_freq) (tm : bool).

(** The loop over the documents returns, for each document in order, the
    vector its token loop fills from zeros, with the document's label. *)
Lemma vectorize_loop_Ok N i (entries : corpus) fvs :
  vectorize_loop (keys dfm) N dfm ts tm i entries = Ok fvs →
  Forall2 (λ (e : string * (list string * string)) (fc : list pynum * string),
             fc.2 = e.2.2 ∧
             fill_vector (keys dfm) N dfm ts tm e.2.1 e.2.1
               (replicate (length (keys dfm)) (PInt 0)) = Ok fc.1) entries fvs.
Proof.
  revert i fvs. induction entries as [|[doc_name [doc c]] rest IH]; intros i fvs.
  - intros [= <-]. constructor.
  - cbn [vectorize_loop].
    destruct (fill_vector _ _ _ _ _ doc doc _) as [fv|] eqn:Efill; [|done]. simpl.
    destruct (print_loading_bar (i + 1) N); [|done]. simpl.
    destruct (vectorize_loop _ _ _ _ _ (i + 1) rest) as [others|] eqn:Erest; [|done].
    simpl. intros [= <-]. constructor; [done|]. by eapply IH.
Qed.

Lemma vectorize_loop_succeeds N i (entries : corpus) :
  N ≠ 0 →
  Forall (λ e : string * (list string * string),
            ∃ fv, fill_vector (keys dfm) N dfm ts tm e.2.1 e.2.1
                    (replicate (length (keys dfm)) (PInt 0)) = Ok fv) entries →
  ∃ fvs, vectorize_loop (keys dfm) N dfm ts tm i entries = Ok fvs.
Proof.
  intros HN Hall. revert i. induction Hall as [|[doc_name [doc c]] rest [fv Hfv] _ IH];
    intros i; [by eexists|].
  cbn [vectorize_loop]. simpl in Hfv. rewrite Hfv. simpl.
  unfold print_loading_bar. rewrite decide_False by done. simpl.
  destruct (IH (i + 1)) as [others ->]. by eexists.
Qed.

Lemma setup_tfidf_vectors_Ok (docs : corpus) fvs :
  setup_tfidf_vectors docs dfm ts tm = Ok fvs →
  docs ≠ [] ∧
  Forall2 (λ (e : string * (list string * string)) (fc : list pynum * string),
             fc.2 = e.2.2 ∧
             fill_vector (keys dfm) (len (keys docs)) dfm ts tm e.2.1 e.2.1
               (replicate (length (keys dfm)) (PInt 0)) = Ok fc.1) docs fvs.
Proof.
  unfold setup_tfidf_vectors. intros H. split; [by intros ->|].
  destruct (print_loading_bar 0 (len (keys docs))); [|done].
  exact (vectorize_loop_Ok _ _ _ _ H).
Qed.

Lemma len_keys_pos {V} (d : dict V) : d ≠ [] → 0 < len (keys d).
Proof. unfold len, keys. destruct d; [done | simpl; lia]. Qed.

(** [setup_tfidf_vectors] returns when the corpus is not empty and every
    vocabulary token of every document has a non-empty entry in the map the
    idf term is read from. *)
Lemma setup_tfidf_vectors_succeeds (docs : corpus) :
  docs ≠ [] →
  (∀ doc_name doc c token, (doc_name, (doc, c)) ∈ docs → token ∈ doc → token ∈ keys dfm →
     ∃ names, dict_get (df_source dfm ts tm) token = Some names ∧ names ≠ []) →
  ∃ fvs, setup_tfidf_vectors docs dfm ts tm = Ok fvs.
Proof.
  intros Hne Hdf. apply len_keys_pos in Hne as HN. unfold setup_tfidf_vectors.
  unfold print_loading_bar at 1. rewrite decide_False by lia. simpl.
  apply vectorize_loop_succeeds; [lia|].
  apply Forall_forall. intros [doc_name [doc c]] Hin. simpl.
  apply fill_vector_succeeds; [done | by rewrite length_replicate | | done].
  intros t Ht Hv. by apply (Hdf doc_name doc c).
Qed.

End setup_facts.

(** C1: for every document of the corpus and every token of its token
    sequence that is in the vocabulary, the vector [setup_tfidf_vectors]
    returns for the document holds, at the token's vocabulary index, the
    weight [(1 + ln(tf)) * ln(N / df)]: [tf] the number of occurrences of
    the token in the document, [N] the number of documents, [df] the length
    of the token's document list in the map the idf term is read from. *)
Theorem setup_tfidf_vectors_weight (docs : corpus) (doc_freq_map : doc_freq)
    (doc_freq_map_testset : option doc_freq) (test_mode : bool)
    (f_vectors : list (list pynum * string)) :
  setup_tfidf_vectors docs doc_freq_map doc_freq_map_testset test_mode = Ok f_vectors →
  ∀ i doc_name doc class_name token,
    docs !! i = Some (doc_name, (doc, class_name)) →
    token ∈ doc → token ∈ keys doc_freq_map →
    ∃ f_vector j names,
      f_vectors !! i = Some (f_vector, class_name) ∧
      list_index (keys doc_freq_map) token = Some j ∧
      dict_get (df_source doc_freq_map doc_freq_map_testset test_mode) token = Some names ∧
      f_vector !! j =
        Some (PMul (PAdd (PInt 1) (PLog (PInt (count doc token))))
                   (PLog (PTrueDiv (len (keys docs)) (len names)))).
Proof.
  intros [_ Hall]%setup_tfidf_vectors_Ok i doc_name doc c token Hi Hdoc Hvocab.
  destruct (Forall2_lookup_l _ _ _ _ _ Hall Hi) as ([fv c'] & Hfv & Hc & Hfill).
  simpl in Hc, Hfill. subst c'.
  destruct (fill_vector_weight _ _ _ _ _ _ _ _ _ token Hfill)
    as (names & j & Hnames & _ & Hj & Hw); [done..|].
  by exists fv, j, names.
Qed.

Lemma setup_tfidf_vectors_weight_witness :
  ∃ f_vector j names,
    [([tfidf_weight 2 3 2; tfidf_weight 1 3 2; PInt 0], "A");
     ([PInt 0; tfidf_weight 1 3 2; tfidf_weight 1 3 2], "B");
     ([tfidf_weight 1 3 2; PInt 0; tfidf_weight 2 3 2], "A")] !! 2%nat
      = Some (f_vector, "A") ∧
    list_index (keys pets_df) "bird" = Some j ∧
    dict_get (df_source pets_df None false) "bird" = Some names ∧
    f_vector !! j =
      Some (PMul (PAdd (PInt 1) (PLog (PInt (count ["cat"; "bird"; "bird"] "bird"))))
                 (PLog (PTrueDiv (len (keys pets)) (len names)))).
Proof.
  apply (setup_tfidf_vectors_weight pets pets_df None false _ eq_refl 2 "doc3").
  - reflexivity.
  - compute_done.
  - compute_done.
Defined.

(** C5: every feature vector [setup_tfidf_vectors] returns has as many
    components as the primary document-frequency map has keys, whatever the
    tokens of its document, and there is one vector per document. *)
Theorem setup_tfidf_vectors_length (docs : corpus) (doc_freq_map : doc_freq)
    (doc_freq_map_testset : option doc_freq) (test_mode : bool)
    (f_vectors : list (list pynum * string)) :
  setup_tfidf_vectors docs doc_freq_map doc_freq_map_testset test_mode = Ok f_vectors →
  length f_vectors = length docs ∧
  ∀ f_vector label, (f_vector, label) ∈ f_vectors →
    length f_vector = length (keys doc_freq_map).
Proof.
  intros [_ Hall]%setup_tfidf_vectors_Ok. split.
  - symmetry. by eapply Forall2_length.
  - intros fv label Hin. apply list_elem_of_lookup in Hin as [i Hi].
    destruct (Forall2_lookup_r _ _ _ _ _ Hall Hi) as (e & _ & _ & Hfill).
    apply fill_vector_length in Hfill. simpl in Hfill.
    by rewrite Hfill, length_replicate.
Qed.

Lemma setup_tfidf_vectors_length_witness :
  length [([tfidf_weight 1 2 1; PInt 0], "p1"); ([PInt 0; PInt 0], "p2")]
    = length [("d1", (["a"; "zzz"], "p1")); ("d2", ([] : list string, "p2"))] ∧
  ∀ f_vector label,
    (f_vector, label) ∈ [([tfidf_weight 1 2 1; PInt 0], "p1"); ([PInt 0; PInt 0], "p2")] →
    length f_vector = length (keys [("a", ["d1"]); ("b", ["d0"; "d9"])]).
Proof.
  apply (setup_tfidf_vectors_length
           [("d1", (["a"; "zzz"], "p1")); ("d2", ([], "p2"))]
           [("a", ["d1"]); ("b", ["d0"; "d9"])] None false).
  reflexivity.
Defined.

(** *** Tokens outside the vocabulary *)

Lemma count_remove doc token t :
  token ≠ t → count (filter (λ x, x ≠ t) doc) token = count doc token.
Proof.
  intros Hne. unfold count. f_equal. rewrite list_filter_filter.
  apply list_filter_iff. intros x. split; [by intros [? _] | intros ->; by split].
Qed.

Lemma token_weight_remove N (dfm : doc_freq) ts tm doc token t :
  token ≠ t →
  token_weight N dfm ts tm (filter (λ x, x ≠ t) doc) token =
  token_weight N dfm ts tm doc token.
Proof. intros Hne. unfold token_weight. by rewrite count_remove. Qed.

Lemma fill_vector_remove vocab N (dfm : doc_freq) ts tm doc tokens fv t :
  t ∉ vocab →
  fill_vector vocab N dfm ts tm (filter (λ x, x ≠ t) doc) (filter (λ x, x ≠ t) tokens) fv =
  fill_vector vocab N dfm ts tm doc tokens fv.
Proof.
  intros Ht. revert fv. induction tokens as [|token rest IH]; intros fv; [done|].
  destruct (decide (token = t)) as [->|Hne].
  - rewrite filter_cons_False by (by intros ?). rewrite IH.
    by rewrite (fill_vector_cons _ _ _ _ _ doc), bool_decide_eq_false_2.
  - rewrite filter_cons_True by done. rewrite !fill_vector_cons.
    case_bool_decide; [|apply IH]. rewrite token_weight_remove by done.
    destruct (token_weight N dfm ts tm doc token) as [w|]; [|done]. simpl.
    destruct (index vocab token) as [i|]; [|done]. simpl.
    destruct (list_setitem fv i w) as [fv'|]; [|done]. simpl. apply IH.
Qed.

Lemma keys_remove_token sel t (docs : corpus) : keys (remove_token sel t docs) = keys docs.
Proof.
  unfold keys, remove_token. rewrite <-list_fmap_compose. apply list_fmap_ext.
  intros _ [n [doc c]] _. simpl. by destruct (sel n).
Qed.

(** C6: a token outside the vocabulary affects no vector component: with
    both document-frequency maps fixed, [setup_tfidf_vectors] returns the same
    result (the same vectors, or the same error) on a corpus and on that
    corpus with every occurrence of the token removed from the token
    sequences of any selection of its documents. *)
Theorem setup_tfidf_vectors_ignores_non_vocab (sel : string → bool) (token : string)
    (docs : corpus) (doc_freq_map : doc_freq) (doc_freq_map_testset : option doc_freq)
    (test_mode : bool) :
  token ∉ keys doc_freq_map →
  setup_tfidf_vectors (remove_token sel token docs) doc_freq_map
    doc_freq_map_testset test_mode =
  setup_tfidf_vectors docs doc_freq_map doc_freq_map_testset test_mode.
Proof.
  intros Ht. unfold setup_tfidf_vectors. rewrite keys_remove_token.
  destruct (print_loading_bar 0 (len (keys docs))); [|done].
  change (vectorize_loop (keys doc_freq_map) (len (keys docs)) doc_freq_map
            doc_freq_map_testset test_mode 0 (remove_token sel token docs) =
          vectorize_loop (keys doc_freq_map) (len (keys docs)) doc_freq_map
            doc_freq_map_testset test_mode 0 docs).
  generalize 0 (len (keys docs)). intros i N. revert i.
  induction docs as [|[doc_name [doc c]] rest IH]; intros i; [done|].
  change (remove_token sel token ((doc_name, (doc, c)) :: rest))
    with ((if sel doc_name then (doc_name, (filter (λ t, t ≠ token) doc, c))
           else (doc_name, (doc, c))) :: remove_token sel token rest).
  destruct (sel doc_name); cbn [vectorize_loop]; rewrite ?fill_vector_remove by done;
    by rewrite IH.
Qed.

Lemma setup_tfidf_vectors_ignores_non_vocab_witness :
  setup_tfidf_vectors (remove_token (λ doc_name, bool_decide (doc_name ≠ "doc2")) "dog" pets)
    [("cat", ["doc1"; "doc3"]); ("bird", ["doc2"; "doc3"])] None false =
  setup_tfidf_vectors pets [("cat", ["doc1"; "doc3"]); ("bird", ["doc2"; "doc3"])] None false.
Proof.
  apply (setup_tfidf_vectors_ignores_non_vocab
           (λ doc_name, bool_decide (doc_name ≠ "doc2")) "dog" pets).
  compute_done.
Defined.

(** *** Which map the idf term is read from *)

(** Where the map the specification names has an entry for a token, it is
    the map the code reads. *)
Lemma df_source_when_supplied_agrees (dfm : doc_freq) ts tm token names :
  dict_get (df_source_when_supplied dfm ts tm) token = Some names →
  df_source dfm ts tm = df_source_when_supplied dfm ts tm.
Proof. destruct tm; [|done]. by destruct ts as [[|e m]|]. Qed.

(** C2: the document frequency of the idf term is read from the test-set
    map exactly when the test-mode flag is true and a test-set map is
    supplied, and from the primary map in every other case (training mode,
    or test mode without a test-set map).  This is under the precondition of
    the vectorizer: every vocabulary token met in a document has a non-empty
    document list in the map so chosen.  Then [setup_tfidf_vectors] returns,
    and each stored weight uses the length of the token's list in that
    map. *)
Theorem idf_source_by_mode (docs : corpus) (doc_freq_map : doc_freq)
    (doc_freq_map_testset : option doc_freq) (test_mode : bool) :
  docs ≠ [] →
  (∀ doc_name doc class_name token,
     (doc_name, (doc, class_name)) ∈ docs → token ∈ doc → token ∈ keys doc_freq_map →
     ∃ names,
       dict_get (df_source_when_supplied doc_freq_map doc_freq_map_testset test_mode) token
         = Some names ∧
       names ≠ []) →
  ∃ f_vectors,
    setup_tfidf_vectors docs doc_freq_map doc_freq_map_testset test_mode = Ok f_vectors ∧
    ∀ i doc_name doc class_name token,
      docs !! i = Some (doc_name, (doc, class_name)) →
      token ∈ doc → token ∈ keys doc_freq_map →
      ∃ f_vector j names,
        f_vectors !! i = Some (f_vector, class_name) ∧
        list_index (keys doc_freq_map) token = Some j ∧
        f_vector !! j = Some (tfidf_weight (count doc token) (len (keys docs)) (len names)) ∧
        ((test_mode = true ∧
          ∃ m, doc_freq_map_testset = Some m ∧ dict_get m token = Some names) ∨
         ((test_mode = false ∨ doc_freq_map_testset = None) ∧
          dict_get doc_freq_map token = Some names)).
Proof.
  intros Hne Hpre.
  destruct (setup_tfidf_vectors_succeeds doc_freq_map doc_freq_map_testset test_mode
              docs Hne) as [fvs Hok].
  { intros doc_name doc c token Hin Hdoc Hvocab.
    destruct (Hpre _ _ _ _ Hin Hdoc Hvocab) as (names & Hnames & Hnn).
    exists names. split; [|done].
    by rewrite (df_source_when_supplied_agrees _ _ _ _ _ Hnames). }
  exists fvs. split; [done|].
  intros i doc_name doc c token Hi Hdoc Hvocab.
  apply setup_tfidf_vectors_Ok in Hok as [_ Hall].
  destruct (Forall2_lookup_l _ _ _ _ _ Hall Hi) as ([fv c'] & Hfv & Hc & Hfill).
  simpl in Hc, Hfill. subst c'.
  destruct (fill_vector_weight _ _ _ _ _ _ _ _ _ token Hfill)
    as (names & j & Hnames & _ & Hj & Hw); [done..|].
  exists fv, j, names. split_and!; [done..|].
  destruct (Hpre doc_name doc c token) as (names' & Hnames' & _);
    [by eapply list_elem_of_lookup_2 | done..|].
  rewrite (df_source_when_supplied_agrees _ _ _ _ _ Hnames') in Hnames.
  clear Hnames'. unfold df_source_when_supplied in Hnames.
  destruct test_mode; [|right; split; [by left | done]].
  destruct doc_freq_map_testset as [m|].
  - left. split; [done|]. by exists m.
  - right. split; [by right | done].
Qed.

Lemma idf_source_by_mode_witness :
  ∃ f_vectors,
    setup_tfidf_vectors [("d1", (["a"; "a"], "p1")); ("d2", (["b"], "p2"))]
      [("a", ["x"; "y"; "z"]); ("b", ["x"])] (Some [("a", ["d1"]); ("b", ["d2"])]) true
      = Ok f_vectors ∧
    ∀ i doc_name doc class_name token,
      [("d1", (["a"; "a"], "p1")); ("d2", (["b"], "p2"))] !! i
        = Some (doc_name, (doc, class_name)) →
      token ∈ doc → token ∈ keys [("a", ["x"; "y"; "z"]); ("b", ["x"])] →
      ∃ f_vector j names,
        f_vectors !! i = Some (f_vector, class_name) ∧
        list_index (keys [("a", ["x"; "y"; "z"]); ("b", ["x"])]) token = Some j ∧
        f_vector !! j =
          Some (tfidf_weight (count doc token)
                  (len (keys [("d1", (["a"; "a"], "p1")); ("d2", (["b"], "p2"))]))
                  (len names)) ∧
        ((true = true ∧
          ∃ m, Some [("a", ["d1"]); ("b", ["d2"])] = Some m ∧ dict_get m token = Some names) ∨
         ((true = false ∨ Some [("a", ["d1"]); ("b", ["d2"])] = None) ∧
          dict_get [("a", ["x"; "y"; "z"]); ("b", ["x"])] token = Some names)).
Proof.
  apply (idf_source_by_mode
           [("d1", (["a"; "a"], "p1")); ("d2", (["b"], "p2"))]
           [("a", ["x"; "y"; "z"]); ("b", ["x"])]
           (Some [("a", ["d1"]); ("b", ["d2"])]) true).
  - done.
  - intros doc_name doc class_name token Hin Hdoc Hvocab.
    apply dict_get_is_Some in Hvocab as [old Hold]. simpl in Hold.
    repeat case_decide; simplify_eq; simpl; eexists; (split; [reflexivity | done]).
Defined.

(** ** The pipelines *)

Lemma dict_set_nonempty {V} (d : dict V) k v : dict_set d k v ≠ [].
Proof. destruct d as [|[k' v'] d]; simpl; [done|]. by case_decide. Qed.

Lemma sample_texts_loop_wf disk fpc (result dataset : raw_corpus) :
  sample_texts_loop disk fpc result = Ok dataset → dict_wf result → dict_wf dataset.
Proof.
  revert result. induction fpc as [|[[doc_name path] c] rest IH]; intros result;
    [by intros [= <-]|].
  cbn [sample_texts_loop]. destruct (open_read disk path) as [text|]; [|done].
  intros H Hwf. apply (IH _ H). by apply dict_set_wf.
Qed.

Lemma sample_texts_for_test_loop_wf disk fpc (result dataset : raw_corpus) :
  sample_texts_for_test_loop disk fpc result = Ok dataset → dict_wf result → dict_wf dataset.
Proof.
  revert result. induction fpc as [|[doc_name path] rest IH]; intros result;
    [by intros [= <-]|].
  cbn [sample_texts_for_test_loop]. destruct (open_read disk path) as [text|]; [|done].
  intros H Hwf. apply (IH _ H). by apply dict_set_wf.
Qed.

(** The corpora the pipelines read from disk are dicts. *)
Lemma sample_texts_wf disk fpc dataset :
  sample_texts disk fpc = Ok dataset → dict_wf dataset.
Proof. intros H. apply (sample_texts_loop_wf _ _ _ _ H), NoDup_nil_2. Qed.

Lemma sample_texts_for_test_wf disk fpc dataset :
  sample_texts_for_test disk fpc = Ok dataset → dict_wf dataset.
Proof. intros H. apply (sample_texts_for_test_loop_wf _ _ _ _ H), NoDup_nil_2. Qed.

Lemma sample_texts_for_test_loop_nonempty disk fpc (result dataset : raw_corpus) :
  sample_texts_for_test_loop disk fpc result = Ok dataset →
  fpc ≠ [] ∨ result ≠ [] → dataset ≠ [].
Proof.
  revert result. induction fpc as [|[doc_name path] rest IH]; intros result.
  - intros [= <-] [?|?]; done.
  - cbn [sample_texts_for_test_loop]. destruct (open_read disk path) as [text|]; [|done].
    intros H _. apply (IH _ H). right. apply dict_set_nonempty.
Qed.

(** C9: in [run_test], whenever the manifest lists a document and the files
    can be read, [tokenize_dataset] returns a test-set document-frequency
    map that has, for every token of every test document that is in the
    training vocabulary, an entry with a non-empty document list; so the
    quotient [N / df] is defined and positive, its logarithm is defined, and
    [setup_tfidf_vectors] returns the vectors without raising. *)
Theorem run_test_df_lookup_defined (tokenize : string → list string) (disk : dict string)
    (fpc : list (string * string)) (doc_freq_map : doc_freq) (dataset : raw_corpus) :
  fpc ≠ [] →
  sample_texts_for_test disk fpc = Ok dataset →
  ∃ docs doc_freq_testset f_vectors,
    tokenize_dataset tokenize dataset = Ok (docs, doc_freq_testset) ∧
    (∀ doc_name doc path token,
       (doc_name, (doc, path)) ∈ docs → token ∈ doc → token ∈ keys doc_freq_map →
       ∃ names,
         dict_get doc_freq_testset token = Some names ∧ names ≠ [] ∧
         0 < len (keys docs) ∧ 0 < len names ∧
         log_ratio (len (keys docs)) (len names) =
           Ok (PLog (PTrueDiv (len (keys docs)) (len names)))) ∧
    setup_tfidf_vectors docs doc_freq_map (Some doc_freq_testset) true = Ok f_vectors.
Proof.
  intros Hfpc Hsample.
  assert (dataset ≠ []) as Hne.
  { apply (sample_texts_for_test_loop_nonempty _ _ _ _ Hsample). by left. }
  destruct (tokenize_dataset_spec tokenize dataset Hne) as (dft & Htok & _ & Hspec).
  set (docs := tokenized tokenize dataset) in *.
  assert (docs ≠ []) as Hdocs by (subst docs; by destruct dataset).
  assert (∀ doc_name doc path token, (doc_name, (doc, path)) ∈ docs → token ∈ doc →
    ∃ names, dict_get dft token = Some names ∧ names ≠ []) as Hentry.
  { intros doc_name doc path token Hin Ht. rewrite Hspec.
    assert (doc_name ∈ docs_containing token docs) as Hdc.
    { apply elem_of_docs_containing. by exists doc, path. }
    rewrite decide_False; [|by intros E; rewrite E in Hdc; apply elem_of_nil in Hdc].
    eexists. split; [done|]. intros E. rewrite E in Hdc. by apply elem_of_nil in Hdc. }
  destruct (setup_tfidf_vectors_succeeds doc_freq_map (Some dft) true docs Hdocs)
    as [fvs Hfvs].
  { intros doc_name doc path token Hin Ht _.
    destruct (Hentry _ _ _ _ Hin Ht) as (names & Hnames & Hnn).
    exists names. split; [|done]. destruct dft; [done | exact Hnames]. }
  exists docs, dft, fvs. split_and!; [done| |done].
  intros doc_name doc path token Hin Ht _.
  destruct (Hentry _ _ _ _ Hin Ht) as (names & Hnames & Hnn).
  apply len_keys_pos in Hdocs.
  assert (0 < len names) by (unfold len; destruct names; [done | simpl; lia]).
  exists names. split_and!; [done..|]. apply log_ratio_Ok. split; [lia | done].
Qed.

Lemma run_test_df_lookup_defined_witness :
  ∃ docs doc_freq_testset f_vectors,
    tokenize_dataset String.words
      [("doc1", ("cat dog cat", "/test/doc1")); ("doc2", ("dog emu", "/test/doc2"))]
      = Ok (docs, doc_freq_testset) ∧
    (∀ doc_name doc path token,
       (doc_name, (doc, path)) ∈ docs → token ∈ doc → token ∈ keys pets_df →
       ∃ names,
         dict_get doc_freq_testset token = Some names ∧ names ≠ [] ∧
         0 < len (keys docs) ∧ 0 < len names ∧
         log_ratio (len (keys docs)) (len names) =
           Ok (PLog (PTrueDiv (len (keys docs)) (len names)))) ∧
    setup_tfidf_vectors docs pets_df (Some doc_freq_testset) true = Ok f_vectors.
Proof.
  apply (run_test_df_lookup_defined String.words pets_test_disk pets_test_fpc pets_df).
  - done.
  - reflexivity.
Defined.

(** C7, amended: [run] culls the vocabulary with the low bound 50 and with,
    as high bound, the number of distinct tokens of the training corpus (the
    number of keys of the document-frequency map before the cull): the
    vocabulary it returns holds exactly the tokens found in more than 50
    documents and in fewer documents than there are distinct tokens. *)
Theorem run_cull_bounds (tokenize : string → list string) (disk : dict string)
    (fpc : list (string * string * string))
    (r : list (list pynum * string) * doc_freq) :
  run tokenize disk fpc = Ok r →
  ∃ dataset docs doc_freq_map,
    sample_texts disk fpc = Ok dataset ∧
    tokenize_dataset tokenize dataset = Ok (docs, doc_freq_map) ∧
    r.2 = cull_doc_freq doc_freq_map 50 (len (keys doc_freq_map)) ∧
    ∀ token names,
      dict_get r.2 token = Some names ↔
      dict_get doc_freq_map token = Some names ∧ 50 < len names < len (keys doc_freq_map).
Proof.
  unfold run. destruct (sample_texts disk fpc) as [dataset|]; [|done].
  cbn [mbind res_bind].
  destruct (tokenize_dataset tokenize dataset) as [[docs dfm]|] eqn:Etok; [|done].
  cbn [mbind res_bind].
  destruct (setup_tfidf_vectors docs _ None false) as [fvs|]; [|done].
  cbn [mbind res_bind]. intros [= <-]. exists dataset, docs, dfm.
  split_and!; [done..|]. intros token names. cbn [snd].
  apply cull_doc_freq_strict_range_iff.
Qed.

Lemma run_cull_bounds_witness :
  ∃ dataset docs doc_freq_map,
    sample_texts news_disk news_fpc = Ok dataset ∧
    tokenize_dataset String.words dataset = Ok (docs, doc_freq_map) ∧
    news_run.2 = cull_doc_freq doc_freq_map 50 (len (keys doc_freq_map)) ∧
    ∀ token names,
      dict_get news_run.2 token = Some names ↔
      dict_get doc_freq_map token = Some names ∧ 50 < len names < len (keys doc_freq_map).
Proof.
  apply (run_cull_bounds String.words news_disk news_fpc news_run).
  vm_compute. reflexivity.
Defined.

(** C7 as worded fails: on a training corpus of 52 documents that all
    contain [the], each with one more token of its own, the
    document-frequency map has 53 keys and [run] keeps [the] (52 < 53),
    which a high bound equal to the number of documents would cull. *)
Lemma run_high_bound_not_doc_count :
  ∃ docs doc_freq_map r,
    sample_texts news_disk news_fpc = Ok news_dataset ∧
    tokenize_dataset String.words news_dataset = Ok (docs, doc_freq_map) ∧
    run String.words news_disk news_fpc = Ok r ∧
    len (keys docs) = 52 ∧ len (keys doc_freq_map) = 53 ∧
    keys r.2 = ["the"] ∧
    cull_doc_freq doc_freq_map 50 (len (keys docs)) = [] ∧
    r.2 ≠ cull_doc_freq doc_freq_map 50 (len (keys docs)).
Proof.
  do 3 eexists. split_and!; [vm_compute; reflexivity ..|].
  vm_compute. discriminate.
Qed.

(** ** [cull_doc_freq] on the object store *)

Module HeapFacts.

Lemma resolve_keys s entries df : Heap.resolve s entries = Some df → keys df = keys entries.
Proof.
  revert df. induction entries as [|[word docs] rest IH]; intros df; [by intros [= <-]|].
  cbn [Heap.resolve]. destruct (s !! docs) as [[|elems]|]; [done| |done].
  destruct (Heap.resolve s rest) as [r|]; [|done]. intros [= <-].
  unfold keys in *. cbn. f_equal. by apply IH.
Qed.

(** A lookup in the dict object and the lookup an observer makes. *)
Lemma resolve_get s entries df word :
  Heap.resolve s entries = Some df →
  match dict_get entries word with
  | Some docs => ∃ elems, s !! docs = Some (Heap.OList elems) ∧ dict_get df word = Some elems
  | None => dict_get df word = None
  end.
Proof.
  revert df. induction entries as [|[w docs] rest IH]; intros df; [by intros [= <-]|].
  cbn [Heap.resolve]. destruct (s !! docs) as [[|elems]|] eqn:Edocs; [done| |done].
  destruct (Heap.resolve s rest) as [r|]; [|done]. intros [= <-]. cbn [dict_get].
  case_decide; [by exists elems|]. by apply IH.
Qed.

Lemma resolve_set s entries df word docs elems :
  Heap.resolve s entries = Some df → s !! docs = Some (Heap.OList elems) →
  Heap.resolve s (dict_set entries word docs) = Some (dict_set df word elems).
Proof.
  intros Hres Hdocs. revert df Hres.
  induction entries as [|[w d] rest IH]; intros df.
  - intros [= <-]. cbn. by rewrite Hdocs.
  - cbn [Heap.resolve]. destruct (s !! d) as [[|e]|] eqn:Ed; [done| |done].
    destruct (Heap.resolve s rest) as [r|] eqn:Er; [|done]. intros [= <-].
    cbn [dict_set]. case_decide.
    + cbn [Heap.resolve]. by rewrite Hdocs, Er.
    + cbn [Heap.resolve]. rewrite Ed, (IH r eq_refl). done.
Qed.

(** Objects added to the store do not change what a dict resolves to. *)
Lemma resolve_app s s2 entries df :
  Heap.resolve s entries = Some df → Heap.resolve (s ++ s2) entries = Some df.
Proof.
  revert df. induction entries as [|[w d] rest IH]; intros df; [done|].
  cbn [Heap.resolve]. destruct (s !! d) as [[|e]|] eqn:Ed; [done| |done].
  rewrite (lookup_app_l_Some _ _ _ _ Ed).
  destruct (Heap.resolve s rest) as [r|]; [|done]. by rewrite (IH r eq_refl).
Qed.

Section cull_loop_facts.
Variables (s : Heap.store) (doc_freq_map : Heap.loc) (entries : dict Heap.loc) (df : doc_freq).
Variables (low high : Z).
Hypothesis Hdict : s !! doc_freq_map = Some (Heap.ODict entries).
Hypothesis Hdf : Heap.resolve s entries = Some df.

(** One iteration on the store is one iteration of [cull_step] for the
    observer, and it writes to the new dict only. *)
Lemma cull_step_store culled pculled word :
  word ∈ keys entries →
  Heap.resolve s culled = Some pculled →
  ∃ culled',
    Heap.cull_step doc_freq_map low high (length s) (s ++ [Heap.ODict culled]) word
      = Ok (s ++ [Heap.ODict culled']) ∧
    Heap.resolve s culled' = Some (cull_step df low high pculled word).
Proof.
  intros Hword Hculled. unfold Heap.cull_step, Heap.dict_at, Heap.list_at.
  rewrite (lookup_app_l_Some _ _ _ _ Hdict). cbn [mbind res_bind].
  pose proof (resolve_get s entries df word Hdf) as Hget.
  apply dict_get_is_Some in Hword as [docs Hdocs]. rewrite Hdocs in Hget.
  destruct Hget as (elems & Helems & Hpure).
  unfold getitem. rewrite Hdocs. cbn [mbind res_bind].
  rewrite (lookup_app_l_Some _ _ _ _ Helems). cbn [mbind res_bind].
  unfold cull_step. rewrite Hpure. cbn zeta.
  destruct (bool_decide (len elems < high) && bool_decide (len elems > low)).
  - exists (dict_set culled word docs). split; [|by apply resolve_set].
    unfold Heap.setitem, Heap.dict_at. rewrite list_lookup_middle by done. cbn [mbind res_bind].
    f_equal. rewrite insert_app_r_alt by done. by rewrite Nat.sub_diag.
  - by exists culled.
Qed.

Lemma cull_loop_store words culled pculled :
  (∀ word, word ∈ words → word ∈ keys entries) →
  Heap.resolve s culled = Some pculled →
  ∃ culled',
    Heap.cull_loop doc_freq_map low high (length s) (s ++ [Heap.ODict culled]) words
      = Ok (s ++ [Heap.ODict culled']) ∧
    Heap.resolve s culled' = Some (foldl (cull_step df low high) pculled words).
Proof.
  revert culled pculled. induction words as [|word rest IH]; intros culled pculled Hin Hc.
  - by exists culled.
  - cbn [Heap.cull_loop foldl].
    destruct (cull_step_store culled pculled word) as (culled1 & -> & Hc1);
      [apply Hin; left | done |].
    cbn [mbind res_bind]. apply IH; [|done]. intros. apply Hin. by right.
Qed.
End cull_loop_facts.
End HeapFacts.

(** C8: [cull_doc_freq] leaves its input alone and returns a new map.  For a
    document-frequency map [df] held at [doc_freq_map] in the store, the
    call returns; the store after the call is the store before it with one
    more object, the returned dict, so every object that was there (the
    input dict and its document lists among them) is what it was; the
    returned reference is new and differs from [doc_freq_map]; the input
    still reads as [df], with the same keys and the same lists; and the
    returned dict reads as the cull of [df]. *)
Theorem cull_doc_freq_pure_filter (s : list Heap.obj) (doc_freq_map : nat)
    (low high : Z) (df : doc_freq) :
  Heap.view s doc_freq_map = Some df →
  ∃ culled,
    Heap.cull_doc_freq s doc_freq_map low high
      = Ok (s ++ [Heap.ODict culled], length s) ∧
    s !! length s = None ∧
    length s ≠ doc_freq_map ∧
    (∀ l o, s !! l = Some o → (s ++ [Heap.ODict culled]) !! l = Some o) ∧
    Heap.view (s ++ [Heap.ODict culled]) doc_freq_map = Some df ∧
    Heap.view (s ++ [Heap.ODict culled]) (length s) = Some (cull_doc_freq df low high).
Proof.
  unfold Heap.view at 1. intros Hview.
  destruct (s !! doc_freq_map) as [[entries|]|] eqn:Hdict; [|done..].
  destruct (HeapFacts.cull_loop_store s doc_freq_map entries df low high Hdict Hview
              (keys entries) [] []) as (culled & Hloop & Hculled); [done..|].
  exists culled. split_and!.
  - unfold Heap.cull_doc_freq, Heap.new, Heap.dict_at.
    rewrite (lookup_app_l_Some _ _ _ _ Hdict). cbn [mbind res_bind].
    by rewrite Hloop.
  - by apply lookup_ge_None.
  - apply lookup_lt_Some in Hdict. lia.
  - intros l o. apply lookup_app_l_Some.
  - unfold Heap.view. rewrite (lookup_app_l_Some _ _ _ _ Hdict).
    by apply HeapFacts.resolve_app.
  - unfold Heap.view. rewrite list_lookup_middle by done.
    rewrite (HeapFacts.resolve_app _ _ _ _ Hculled). unfold cull_doc_freq.
    by rewrite (HeapFacts.resolve_keys _ _ _ Hview).
Qed.

Lemma cull_doc_freq_pure_filter_witness :
  ∃ culled,
    Heap.cull_doc_freq pets_store 3 1 3
      = Ok (pets_store ++ [Heap.ODict culled], length pets_store) ∧
    pets_store !! length pets_store = None ∧
    length pets_store ≠ 3%nat ∧
    (∀ l o, pets_store !! l = Some o → (pets_store ++ [Heap.ODict culled]) !! l = Some o) ∧
    Heap.view (pets_store ++ [Heap.ODict culled]) 3
      = Some [("cat", ["doc1"; "doc3"]); ("dog", ["doc1"; "doc2"; "doc3"]); ("bird", ["doc2"])] ∧
    Heap.view (pets_store ++ [Heap.ODict culled]) (length pets_store)
      = Some (cull_doc_freq
                [("cat", ["doc1"; "doc3"]); ("dog", ["doc1"; "doc2"; "doc3"]); ("bird", ["doc2"])]
                1 3).
Proof.
  apply (cull_doc_freq_pure_filter pets_store 3 1 3).
  reflexivity.
Defined.

(** * Further properties *)

(** ** Lists without repetition *)

Lemma elem_of_distinct l x : x ∈ distinct l ↔ x ∈ l.
Proof.
  induction l as [|y l IH]; [done|]. cbn [distinct].
  rewrite !elem_of_cons, list_elem_of_filter, IH.
  destruct (decide (x = y)) as [->|Hne]; [by split; left|].
  split; [intros [?|[_ ?]]; [by left | by right] | intros [?|?]; [by left | by right]].
Qed.

Lemma NoDup_distinct l : NoDup (distinct l).
Proof.
  induction l as [|y l IH]; [apply NoDup_nil_2|]. cbn [distinct].
  apply NoDup_cons. split; [|by apply NoDup_filter].
  intros [Hy _]%list_elem_of_filter. done.
Qed.

(** Adding the elements of [l] one by one to [acc], skipping those already
    there, appends the distinct elements of [l] that [acc] lacks. *)
Lemma foldl_add_new l acc :
  foldl add_new acc l = acc ++ filter (λ y, y ∉ acc) (distinct l).
Proof.
  revert acc. induction l as [|x l IH]; intros acc; cbn [foldl distinct].
  - by rewrite app_nil_r.
  - rewrite IH. unfold add_new. destruct (decide (x ∈ acc)) as [Hin|Hin].
    + rewrite filter_cons_False by (by intros ?). f_equal.
      rewrite list_filter_filter. apply list_filter_iff. intros y.
      split; [intros Hy; split; [done | by intros ->] | by intros [? _]].
    + rewrite filter_cons_True by done. rewrite <-app_assoc. cbn [app]. do 2 f_equal.
      rewrite list_filter_filter. apply list_filter_iff. intros y.
      rewrite elem_of_app, list_elem_of_singleton. split.
      * intros Hy. split; [intros ?; apply Hy; by left | intros ->; apply Hy; by right].
      * intros [Hy Hne] [?|?]; done.
Qed.

Lemma foldl_add_new_nil l : foldl add_new [] l = distinct l.
Proof.
  rewrite foldl_add_new. cbn [app]. induction (distinct l) as [|y k IH]; [done|].
  rewrite filter_cons_True by apply not_elem_of_nil. by rewrite IH.
Qed.

Lemma keys_dict_set_add_new {V} (d : dict V) k v :
  keys (dict_set d k v) = add_new (keys d) k.
Proof. apply keys_dict_set. Qed.

(** ** Class names and the documents of a class *)

Lemma get_class_names_loop_foldl fpc result :
  get_class_names_loop fpc result = foldl add_new result (fpc.*2).
Proof.
  revert result. induction fpc as [|[[n p] c] rest IH]; intros result; [done|].
  cbn [get_class_names_loop fmap list_fmap foldl snd]. unfold add_new at 2.
  case_bool_decide as Hc.
  - rewrite decide_False by done. apply IH.
  - rewrite decide_True by done. apply IH.
Qed.

(** [get_class_names] lists every class of the manifest exactly once, in the
    order in which the classes first appear. *)
Theorem get_class_names_distinct (fpc : list (string * string * string)) :
  get_class_names fpc = distinct (fpc.*2) ∧
  NoDup (get_class_names fpc) ∧
  ∀ class_name,
    class_name ∈ get_class_names fpc ↔
    ∃ doc_name path, (doc_name, path, class_name) ∈ fpc.
Proof.
  assert (get_class_names fpc = distinct (fpc.*2)) as Heq.
  { unfold get_class_names. by rewrite get_class_names_loop_foldl, foldl_add_new_nil. }
  split_and!; [done | rewrite Heq; apply NoDup_distinct |].
  intros class_name. rewrite Heq, elem_of_distinct, list_elem_of_fmap. split.
  - intros ([[n p] c] & -> & Hin). by exists n, p.
  - intros (n & p & Hin). by exists (n, p, class_name).
Qed.

Lemma over_limit_length LIMIT result :
  over_limit LIMIT result =
    match LIMIT with
    | Some n => bool_decide (Z.to_nat (n + 1) ≤ length result)%nat
    | None => false
    end.
Proof.
  destruct LIMIT as [n|]; [|done]. unfold over_limit, len.
  apply bool_decide_ext. lia.
Qed.

Lemma get_texts_for_class_loop_None class_name fpc result :
  get_texts_for_class_loop class_name None fpc result =
    result ++ filter (λ e, e.2 = class_name) fpc.
Proof.
  revert result. induction fpc as [|e rest IH]; intros result;
    cbn [get_texts_for_class_loop over_limit].
  - by rewrite app_nil_r.
  - case_bool_decide.
    + rewrite filter_cons_True by done. rewrite IH. by rewrite <-app_assoc.
    + rewrite filter_cons_False by done. apply IH.
Qed.

Lemma get_texts_for_class_loop_Some class_name n fpc result :
  get_texts_for_class_loop class_name (Some n) fpc result =
    result ++ take (Z.to_nat (n + 1) - length result) (filter (λ e, e.2 = class_name) fpc).
Proof.
  revert result. induction fpc as [|e rest IH]; intros result;
    cbn [get_texts_for_class_loop].
  - by rewrite filter_nil, take_nil, app_nil_r.
  - case_bool_decide.
    + rewrite filter_cons_True by done. rewrite over_limit_length.
      case_bool_decide as Hlim.
      * replace (Z.to_nat (n + 1) - length result)%nat with 0%nat by lia.
        by rewrite take_0, app_nil_r.
      * rewrite IH, length_app. cbn [length].
        replace (Z.to_nat (n + 1) - length result)%nat
          with (S (Z.to_nat (n + 1) - (length result + 1)))%nat by lia.
        cbn [take]. by rewrite <-app_assoc.
    + rewrite filter_cons_False by done. apply IH.
Qed.

(** [get_texts_for_class] returns the manifest entries of the class in
    manifest order: all of them without a limit, and with [LIMIT = n] the
    first [n + 1] of them (none when [n] is negative). *)
Theorem get_texts_for_class_take (fpc : list (string * string * string))
    (class_name : string) (LIMIT : option Z) :
  get_texts_for_class fpc class_name LIMIT =
    match LIMIT with
    | None => filter (λ e, e.2 = class_name) fpc
    | Some n => take (Z.to_nat (n + 1)) (filter (λ e, e.2 = class_name) fpc)
    end.
Proof.
  unfold get_texts_for_class. destruct LIMIT as [n|].
  - rewrite get_texts_for_class_loop_Some. cbn [app length]. by rewrite Nat.sub_0_r.
  - by rewrite get_texts_for_class_loop_None.
Qed.

(** ** Reading the corpus from disk *)

Section sample_texts_facts.
Variable disk : dict string.

Lemma sample_texts_loop_app fpc1 fpc2 (result : raw_corpus) :
  sample_texts_loop disk (fpc1 ++ fpc2) result =
    sample_texts_loop disk fpc1 result ≫= sample_texts_loop disk fpc2.
Proof.
  revert result. induction fpc1 as [|[[n p] c] rest IH]; intros result; [done|].
  cbn [app sample_texts_loop]. destruct (open_read disk p) as [text|]; [|done].
  cbn [mbind res_bind]. apply IH.
Qed.

Lemma sample_texts_loop_keys fpc (result dataset : raw_corpus) :
  sample_texts_loop disk fpc result = Ok dataset →
  keys dataset = foldl add_new (keys result) (fpc.*1.*1).
Proof.
  revert result. induction fpc as [|[[n p] c] rest IH]; intros result;
    [by intros [= <-]|].
  cbn [sample_texts_loop]. destruct (open_read disk p) as [text|]; [|done].
  cbn [mbind res_bind]. intros ->%IH. by rewrite keys_dict_set_add_new.
Qed.

(** The entries of the names the manifest does not list stay as they are. *)
Lemma sample_texts_loop_other fpc (result dataset : raw_corpus) name :
  sample_texts_loop disk fpc result = Ok dataset →
  name ∉ fpc.*1.*1 →
  dict_get dataset name = dict_get result name.
Proof.
  revert result. induction fpc as [|[[n p] c] rest IH]; intros result;
    [by intros [= <-]|].
  cbn [sample_texts_loop]. destruct (open_read disk p) as [text|]; [|done].
  cbn [mbind res_bind]. intros Hloop [Hne Hrest]%not_elem_of_cons.
  rewrite (IH _ Hloop Hrest), dict_get_set. by rewrite decide_False.
Qed.

Lemma sample_texts_loop_succeeds fpc (result : raw_corpus) :
  Forall (λ e : string * string * string, is_Some (dict_get disk e.1.2)) fpc →
  ∃ dataset, sample_texts_loop disk fpc result = Ok dataset.
Proof.
  intros Hall. revert result.
  induction Hall as [|[[n p] c] rest [text Hp] _ IH]; intros result; [by eexists|].
  cbn [sample_texts_loop]. unfold open_read. simpl in Hp. rewrite Hp.
  cbn [mbind res_bind]. apply IH.
Qed.

Lemma sample_texts_loop_Ok_inv fpc (result dataset : raw_corpus) :
  sample_texts_loop disk fpc result = Ok dataset →
  Forall (λ e : string * string * string, is_Some (dict_get disk e.1.2)) fpc.
Proof.
  revert result. induction fpc as [|[[n p] c] rest IH]; intros result; [by constructor|].
  cbn [sample_texts_loop]. unfold open_read.
  destruct (dict_get disk p) as [text|] eqn:Hp; [|done]. cbn [mbind res_bind].
  intros Hrest%IH. constructor; [by exists text | done].
Qed.

Lemma sample_texts_loop_nonempty fpc (result dataset : raw_corpus) :
  sample_texts_loop disk fpc result = Ok dataset →
  fpc ≠ [] ∨ result ≠ [] → dataset ≠ [].
Proof.
  revert result. induction fpc as [|[[n p] c] rest IH]; intros result.
  - intros [= <-] [?|?]; done.
  - cbn [sample_texts_loop]. destruct (open_read disk p) as [text|]; [|done].
    intros H _. apply (IH _ H). right. by destruct result as [|[??]?]; simpl; [|case_decide].
Qed.
End sample_texts_facts.

(** [sample_texts] keeps one document per file name: the keys of the corpus
    it returns are the distinct file names of the manifest, in the order in
    which they first appear. *)
Theorem sample_texts_keys (disk : dict string) (fpc : list (string * string * string))
    (dataset : raw_corpus) :
  sample_texts disk fpc = Ok dataset →
  keys dataset = distinct (fpc.*1.*1) ∧
  (length dataset ≤ length fpc)%nat.
Proof.
  intros Hs. apply sample_texts_loop_keys in Hs as Hk. cbn in Hk.
  rewrite foldl_add_new_nil in Hk. split; [done|].
  assert (length dataset = length (keys dataset)) as -> by (unfold keys; by rewrite length_fmap).
  rewrite Hk. clear. induction fpc as [|[[n p] c] rest IH]; [done|].
  cbn [fmap list_fmap distinct length fst].
  etrans; [apply le_n_S, length_filter | by apply le_n_S].
Qed.

Lemma sample_texts_keys_witness :
  keys [("a.txt", ("vote poll", "news")); ("b.txt", ("vote", "news"));
        ("c.txt", ("goal", "sports")); ("d.txt", ("paint", "arts"));
        ("e.txt", ("run goal", "sports"))]
    = distinct (mixed_fpc.*1.*1) ∧
  (length [("a.txt", ("vote poll", "news")); ("b.txt", ("vote", "news"));
           ("c.txt", ("goal", "sports")); ("d.txt", ("paint", "arts"));
           ("e.txt", ("run goal", "sports"))] ≤ length mixed_fpc)%nat.
Proof. apply (sample_texts_keys mixed_disk mixed_fpc). reflexivity. Defined.

(** When two manifest lines name the same file, the later one wins: a
    document has the text and the class of the last manifest entry with its
    name. *)
Theorem sample_texts_last_wins (disk : dict string)
    (pre post : list (string * string * string)) (doc_name path class_name : string)
    (dataset : raw_corpus) :
  sample_texts disk (pre ++ (doc_name, path, class_name) :: post) = Ok dataset →
  doc_name ∉ post.*1.*1 →
  ∃ text, dict_get disk path = Some text ∧
    dict_get dataset doc_name = Some (text, class_name).
Proof.
  unfold sample_texts. rewrite sample_texts_loop_app.
  destruct (sample_texts_loop disk pre []) as [result|]; [|done].
  cbn [mbind res_bind sample_texts_loop]. unfold open_read.
  destruct (dict_get disk path) as [text|]; [|done]. cbn [mbind res_bind].
  intros Hpost Hnot. exists text. split; [done|].
  rewrite (sample_texts_loop_other _ _ _ _ _ Hpost Hnot), dict_get_set.
  by rewrite decide_True.
Qed.

Lemma sample_texts_last_wins_witness :
  ∃ text, dict_get mixed_disk "/y/a.txt" = Some text ∧
    dict_get [("a.txt", ("vote poll", "news")); ("b.txt", ("vote", "news"));
              ("c.txt", ("goal", "sports")); ("d.txt", ("paint", "arts"));
              ("e.txt", ("run goal", "sports"))] "a.txt" = Some (text, "news").
Proof.
  apply (sample_texts_last_wins mixed_disk
           [("a.txt", "/x/a.txt", "sports"); ("b.txt", "/x/b.txt", "news")]
           [("c.txt", "/x/c.txt", "sports"); ("d.txt", "/x/d.txt", "arts");
            ("e.txt", "/x/e.txt", "sports")]).
  - reflexivity.
  - compute_done.
Defined.

(** [sample_texts] returns a corpus exactly when every listed file is on the
    disk, and otherwise raises [FileNotFoundError] for the first listed path
    that is not. *)
Theorem sample_texts_missing_file (disk : dict string)
    (fpc : list (string * string * string)) :
  ((∃ dataset, sample_texts disk fpc = Ok dataset) ↔
   Forall (λ e : string * string * string, is_Some (dict_get disk e.1.2)) fpc) ∧
  ∀ pre post doc_name path class_name,
    fpc = pre ++ (doc_name, path, class_name) :: post →
    Forall (λ e : string * string * string, is_Some (dict_get disk e.1.2)) pre →
    dict_get disk path = None →
    sample_texts disk fpc = Raise (FileNotFoundError path).
Proof.
  assert (∀ pre post doc_name path class_name,
    fpc = pre ++ (doc_name, path, class_name) :: post →
    Forall (λ e : string * string * string, is_Some (dict_get disk e.1.2)) pre →
    dict_get disk path = None →
    sample_texts disk fpc = Raise (FileNotFoundError path)) as Hmiss.
  { intros pre post n p c -> Hpre Hp. unfold sample_texts.
    rewrite sample_texts_loop_app.
    destruct (sample_texts_loop_succeeds disk pre [] Hpre) as [result ->].
    cbn [mbind res_bind sample_texts_loop]. unfold open_read. by rewrite Hp. }
  split; [|done]. split; [|apply sample_texts_loop_succeeds].
  intros [dataset Hok]. by apply sample_texts_loop_Ok_inv in Hok.
Qed.

Lemma sample_texts_missing_file_witness :
  sample_texts [("/x/a.txt", "goal")]
    [("a.txt", "/x/a.txt", "sports"); ("b.txt", "/x/b.txt", "news");
     ("c.txt", "/x/c.txt", "news")]
  = Raise (FileNotFoundError "/x/b.txt").
Proof.
  apply (proj2 (sample_texts_missing_file [("/x/a.txt", "goal")]
                  [("a.txt", "/x/a.txt", "sports"); ("b.txt", "/x/b.txt", "news");
                   ("c.txt", "/x/c.txt", "news")])
           [("a.txt", "/x/a.txt", "sports")] [("c.txt", "/x/c.txt", "news")]
           "b.txt" "/x/b.txt" "news").
  - reflexivity.
  - repeat constructor. by eexists.
  - reflexivity.
Defined.

(** ** More on tokenization *)

Section tokenize_more.
Variable tokenize : string → list string.

Lemma record_tokens_keys doc_name tokens seen (m : doc_freq) :
  (∀ x, x ∈ seen → x ∈ keys m) →
  keys (record_tokens doc_name tokens seen m) = foldl add_new (keys m) tokens.
Proof.
  revert seen m. induction tokens as [|token rest IH]; intros seen m Hseen; [done|].
  rewrite record_tokens_cons. cbn [foldl]. case_bool_decide as Hnew.
  - rewrite IH; [by rewrite keys_dict_set_add_new|].
    intros x Hx. rewrite keys_dict_set_add_new. unfold add_new.
    apply elem_of_app in Hx as [Hx| ->%list_elem_of_singleton].
    + case_decide; [by apply Hseen|]. apply elem_of_app. left. by apply Hseen.
    + case_decide; [done|]. apply elem_of_app. right. left.
  - rewrite IH by done. unfold add_new. by rewrite decide_True by (by apply Hseen).
Qed.

Lemma tokenize_loop_keys N i (entries : raw_corpus) (m : doc_freq) docs dfm :
  tokenize_loop tokenize N i entries m = Ok (docs, dfm) →
  keys dfm = foldl add_new (keys m) (all_tokens docs).
Proof.
  revert i m docs. induction entries as [|[doc_name [text c]] rest IH]; intros i m docs.
  - by intros [= <- <-].
  - cbn [tokenize_loop]. destruct (print_loading_bar (i + 1) N); [|done].
    cbn [mbind res_bind].
    destruct (tokenize_loop tokenize N (i + 1) rest _) as [[docs' dfm']|] eqn:Erest; [|done].
    cbn [mbind res_bind]. intros [= <- <-]. rewrite (IH _ _ _ Erest).
    unfold all_tokens. cbn [fmap list_fmap concat fst snd]. rewrite foldl_app.
    by rewrite record_tokens_keys by (by intros ? ?%elem_of_nil).
Qed.
End tokenize_more.

(** On a corpus that is not empty [tokenize_dataset] returns: the corpus
    with every text replaced by its token sequence, names, labels and order
    unchanged; and a document-frequency map in which the entry of a token is
    the list of the documents that contain it, in corpus order, a token
    found in no document having no entry. *)
Theorem tokenize_dataset_result (tokenize : string → list string) (dataset : raw_corpus) :
  dataset ≠ [] →
  ∃ doc_freq_map,
    tokenize_dataset tokenize dataset = Ok (tokenized tokenize dataset, doc_freq_map) ∧
    ∀ token names,
      dict_get doc_freq_map token = Some names ↔
      names = docs_containing token (tokenized tokenize dataset) ∧
      ∃ doc_name doc class_name,
        (doc_name, (doc, class_name)) ∈ tokenized tokenize dataset ∧ token ∈ doc.
Proof.
  intros Hne. destruct (tokenize_dataset_spec tokenize dataset Hne) as (dfm & Hok & _ & Hget).
  exists dfm. split; [done|]. intros token names. rewrite Hget.
  set (l := docs_containing token (tokenized tokenize dataset)).
  assert (l ≠ [] ↔ ∃ doc_name doc class_name,
    (doc_name, (doc, class_name)) ∈ tokenized tokenize dataset ∧ token ∈ doc) as Hl.
  { split.
    - destruct l as [|d l'] eqn:El; [done|]. intros _.
      assert (d ∈ l) as Hd by (rewrite El; left).
      apply elem_of_docs_containing in Hd as (doc & c & ? & ?). by exists d, doc, c.
    - intros (d & doc & c & Hin & Ht) El.
      assert (d ∈ l) as Hd by (apply elem_of_docs_containing; by exists doc, c).
      rewrite El in Hd. by apply elem_of_nil in Hd. }
  case_decide as Hnil.
  - split; [done|]. intros [_ Hex]. by apply Hl in Hex.
  - split; [intros [= <-]; split; [done | by apply Hl] | by intros [-> _]].
Qed.

Lemma tokenize_dataset_result_witness :
  ∃ doc_freq_map,
    tokenize_dataset String.words pets_raw = Ok (tokenized String.words pets_raw, doc_freq_map) ∧
    ∀ token names,
      dict_get doc_freq_map token = Some names ↔
      names = docs_containing token (tokenized String.words pets_raw) ∧
      ∃ doc_name doc class_name,
        (doc_name, (doc, class_name)) ∈ tokenized String.words pets_raw ∧ token ∈ doc.
Proof. apply (tokenize_dataset_result String.words pets_raw). done. Defined.

(** The keys of the document-frequency map, which become the vocabulary,
    are the distinct tokens of the corpus in the order in which they first
    occur, reading the documents in corpus order. *)
Theorem tokenize_dataset_vocabulary_order (tokenize : string → list string)
    (dataset : raw_corpus) (docs : corpus) (doc_freq_map : doc_freq) :
  tokenize_dataset tokenize dataset = Ok (docs, doc_freq_map) →
  keys doc_freq_map = distinct (all_tokens docs).
Proof.
  unfold tokenize_dataset. destruct (print_loading_bar 0 _); [|done].
  cbn [mbind res_bind]. intros ->%tokenize_loop_keys. apply foldl_add_new_nil.
Qed.

Lemma tokenize_dataset_vocabulary_order_witness :
  keys pets_df = distinct (all_tokens pets).
Proof.
  apply (tokenize_dataset_vocabulary_order String.words pets_raw pets pets_df).
  reflexivity.
Defined.

(** Every document frequency [tokenize_dataset] records is at least 1 and at
    most the number of documents. *)
Theorem tokenize_dataset_df_bounds (tokenize : string → list string)
    (dataset : raw_corpus) (docs : corpus) (doc_freq_map : doc_freq)
    (token : string) (names : list string) :
  tokenize_dataset tokenize dataset = Ok (docs, doc_freq_map) →
  dict_get doc_freq_map token = Some names →
  1 ≤ len names ≤ len (keys docs).
Proof.
  intros Hok Hget. apply tokenize_dataset_Ok in Hok as Hdocs. destruct Hdocs as [Hne ->].
  destruct (tokenize_dataset_spec tokenize dataset Hne) as (dfm & Hok' & _ & Hspec).
  rewrite Hok in Hok'. injection Hok' as <-. rewrite Hspec in Hget.
  case_decide as Hnil; [done|]. injection Hget as <-. unfold len. split.
  - destruct (docs_containing token _); [done | simpl; lia].
  - apply inj_le, sublist_length, docs_containing_sublist.
Qed.

Lemma tokenize_dataset_df_bounds_witness :
  1 ≤ len ["doc2"; "doc3"] ≤ len (keys pets).
Proof.
  apply (tokenize_dataset_df_bounds String.words pets_raw pets pets_df "bird").
  - reflexivity.
  - reflexivity.
Defined.

(** ** More on the TF-IDF vectors *)

(** A component of a feature vector whose vocabulary token does not occur
    in the document is the integer 0 the vector was initialised with. *)
Theorem setup_tfidf_vectors_absent_token_zero (docs : corpus) (doc_freq_map : doc_freq)
    (doc_freq_map_testset : option doc_freq) (test_mode : bool)
    (f_vectors : list (list pynum * string))
    (i j : nat) (doc_name : string) (doc : list string) (class_name token : string) :
  setup_tfidf_vectors docs doc_freq_map doc_freq_map_testset test_mode = Ok f_vectors →
  docs !! i = Some (doc_name, (doc, class_name)) →
  keys doc_freq_map !! j = Some token →
  token ∉ doc →
  ∃ f_vector, f_vectors !! i = Some (f_vector, class_name) ∧ f_vector !! j = Some (PInt 0).
Proof.
  intros [_ Hall]%setup_tfidf_vectors_Ok Hi Hj Hdoc.
  destruct (Forall2_lookup_l _ _ _ _ _ Hall Hi) as ([fv c'] & Hfv & Hc & Hfill).
  simpl in Hc, Hfill. subst c'. exists fv. split; [done|].
  rewrite (fill_vector_untouched _ _ _ _ _ _ _ _ _ j Hfill).
  - apply lookup_replicate_2. by apply lookup_lt_Some in Hj.
  - intros t Ht Hidx%list_index_lookup. congruence.
Qed.

Lemma setup_tfidf_vectors_absent_token_zero_witness :
  ∃ f_vector,
    [([tfidf_weight 2 3 2; tfidf_weight 1 3 2; PInt 0], "A");
     ([PInt 0; tfidf_weight 1 3 2; tfidf_weight 1 3 2], "B");
     ([tfidf_weight 1 3 2; PInt 0; tfidf_weight 2 3 2], "A")] !! 1%nat
      = Some (f_vector, "B") ∧
    f_vector !! 0%nat = Some (PInt 0).
Proof.
  apply (setup_tfidf_vectors_absent_token_zero pets pets_df None false _ 1 0
           "doc2" ["dog"; "bird"] "B" "cat" eq_refl).
  - reflexivity.
  - reflexivity.
  - compute_done.
Defined.

(** The vectors come back in document order, each paired with the second
    slot of its document: the class name in training, the path in test. *)
Theorem setup_tfidf_vectors_labels (docs : corpus) (doc_freq_map : doc_freq)
    (doc_freq_map_testset : option doc_freq) (test_mode : bool)
    (f_vectors : list (list pynum * string)) :
  setup_tfidf_vectors docs doc_freq_map doc_freq_map_testset test_mode = Ok f_vectors →
  f_vectors.*2 = (λ e, e.2.2) <$> docs.
Proof.
  intros [_ Hall]%setup_tfidf_vectors_Ok.
  induction Hall as [|[n [doc c]] [fv c'] docs0 fvs [Hc _] _ IH]; [done|].
  cbn in Hc. subst c'. cbn [fmap list_fmap snd]. f_equal. apply IH.
Qed.

Lemma setup_tfidf_vectors_labels_witness :
  [([tfidf_weight 2 3 2; tfidf_weight 1 3 2; PInt 0], "A");
   ([PInt 0; tfidf_weight 1 3 2; tfidf_weight 1 3 2], "B");
   ([tfidf_weight 1 3 2; PInt 0; tfidf_weight 2 3 2], "A")].*2
  = (λ e, e.2.2) <$> pets.
Proof. apply (setup_tfidf_vectors_labels pets pets_df None false). reflexivity. Defined.

(** [setup_tfidf_vectors] returns vectors exactly when the corpus is not
    empty and every vocabulary token that occurs in a document has a
    non-empty document list in the map the idf term is read from; in every
    other case it raises. *)
Theorem setup_tfidf_vectors_returns_iff (docs : corpus) (doc_freq_map : doc_freq)
    (doc_freq_map_testset : option doc_freq) (test_mode : bool) :
  (∃ f_vectors,
     setup_tfidf_vectors docs doc_freq_map doc_freq_map_testset test_mode = Ok f_vectors) ↔
  docs ≠ [] ∧
  ∀ doc_name doc class_name token,
    (doc_name, (doc, class_name)) ∈ docs → token ∈ doc → token ∈ keys doc_freq_map →
    ∃ names,
      dict_get (df_source doc_freq_map doc_freq_map_testset test_mode) token = Some names ∧
      names ≠ [].
Proof.
  split.
  - intros [fvs Hok]. apply setup_tfidf_vectors_Ok in Hok as [Hne Hall].
    split; [done|]. intros doc_name doc c token Hin Hdoc Hvocab.
    apply list_elem_of_lookup in Hin as [i Hi].
    destruct (Forall2_lookup_l _ _ _ _ _ Hall Hi) as ([fv c'] & _ & _ & Hfill).
    simpl in Hfill.
    destruct (fill_vector_weight _ _ _ _ _ _ _ _ _ token Hfill)
      as (names & j & Hnames & Hpos & _); [done..|].
    exists names. split; [done|]. intros ->. unfold len in Hpos. simpl in Hpos. lia.
  - intros [Hne Hdf]. by apply setup_tfidf_vectors_succeeds.
Qed.

(** *** The order of the tokens inside a document *)

Lemma count_Permutation doc doc' token : doc ≡ₚ doc' → count doc token = count doc' token.
Proof. intros Hp. unfold count, len. by rewrite Hp. Qed.

Lemma fill_vector_Permutation vocab N (dfm : doc_freq) ts tm doc doc' fv :
  0 < N → doc ≡ₚ doc' →
  fill_vector vocab N dfm ts tm doc doc (replicate (length vocab) (PInt 0)) = Ok fv →
  fill_vector vocab N dfm ts tm doc' doc' (replicate (length vocab) (PInt 0)) = Ok fv.
Proof.
  intros HN Hp Hfill.
  destruct (fill_vector_succeeds vocab N dfm ts tm doc' doc'
              (replicate (length vocab) (PInt 0)) HN) as [fv' Hfill'];
    [by rewrite length_replicate | | done |].
  { intros t Ht Hv. rewrite <-Hp in Ht.
    destruct (fill_vector_weight _ _ _ _ _ _ _ _ _ t Hfill)
      as (names & j & Hnames & Hpos & _); [done..|].
    exists names. split; [done|]. intros ->. unfold len in Hpos. simpl in Hpos. lia. }
  rewrite Hfill'. f_equal. apply list_eq. intros j.
  destruct (decide (Exists (λ t, list_index vocab t = Some j) doc)) as [Hex|Hex].
  - apply Exists_exists in Hex as (t & Ht & Hj).
    assert (t ∈ vocab) as Hv by (eapply list_elem_of_lookup_2, list_index_lookup, Hj).
    destruct (fill_vector_weight _ _ _ _ _ _ _ _ _ t Hfill)
      as (names & j1 & Hnames & _ & Hj1 & Hw); [done..|].
    destruct (fill_vector_weight _ _ _ _ _ _ _ _ _ t Hfill')
      as (names' & j2 & Hnames' & _ & Hj2 & Hw'); [done | by rewrite <-Hp | done |].
    rewrite (count_Permutation _ _ _ Hp) in Hw. congruence.
  - rewrite (fill_vector_untouched _ _ _ _ _ _ _ _ _ j Hfill'),
            (fill_vector_untouched _ _ _ _ _ _ _ _ _ j Hfill); [done| |].
    + intros t Ht Hj. apply Hex, Exists_exists. by exists t.
    + intros t Ht Hj. apply Hex, Exists_exists. exists t. by rewrite Hp.
Qed.

Lemma same_token_bags_keys docs docs' : same_token_bags docs docs' → keys docs' = keys docs.
Proof.
  unfold keys. induction 1 as [|[n e] [n' e'] docs0 docs0' (Hn & _) _ IH]; [done|].
  cbn in Hn. subst n'. cbn [fmap list_fmap fst]. f_equal. apply IH.
Qed.

Lemma vectorize_loop_same_token_bags vocab N (dfm : doc_freq) ts tm i docs docs' fvs :
  0 < N → same_token_bags docs docs' →
  vectorize_loop vocab N dfm ts tm i docs = Ok fvs →
  vectorize_loop vocab N dfm ts tm i docs' = Ok fvs.
Proof.
  intros HN Hbags. revert i fvs.
  induction Hbags as [|[n [doc c]] [n' [doc' c']] docs0 docs0' (Hn & Hp & Hc) _ IH];
    intros i fvs; [done|].
  cbn in Hn, Hp, Hc. subst n' c'. cbn [vectorize_loop].
  destruct (fill_vector _ _ _ _ _ doc doc _) as [fv|] eqn:Efill; [|done].
  rewrite (fill_vector_Permutation _ _ _ _ _ _ _ _ HN Hp Efill). cbn [mbind res_bind].
  destruct (print_loading_bar (i + 1) _); [|done]. cbn [mbind res_bind].
  destruct (vectorize_loop _ _ _ _ _ (i + 1) docs0) as [others|] eqn:Eothers; [|done].
  by rewrite (IH _ _ Eothers).
Qed.

(** The vectors depend on how often each token occurs in a document, not on
    where: rearranging the tokens inside the documents of a corpus that
    [setup_tfidf_vectors] vectorizes gives the same vectors. *)
Theorem setup_tfidf_vectors_token_order (docs docs' : corpus) (doc_freq_map : doc_freq)
    (doc_freq_map_testset : option doc_freq) (test_mode : bool)
    (f_vectors : list (list pynum * string)) :
  same_token_bags docs docs' →
  setup_tfidf_vectors docs doc_freq_map doc_freq_map_testset test_mode = Ok f_vectors →
  setup_tfidf_vectors docs' doc_freq_map doc_freq_map_testset test_mode = Ok f_vectors.
Proof.
  intros Hbags Hok. unfold setup_tfidf_vectors in *.
  rewrite (same_token_bags_keys _ _ Hbags).
  assert (0 < len (keys docs)) as HN.
  { apply len_keys_pos. intros ->. done. }
  destruct (print_loading_bar 0 (len (keys docs))); [|done]. cbn [mbind res_bind] in *.
  by apply (vectorize_loop_same_token_bags _ _ _ _ _ _ docs).
Qed.

Lemma setup_tfidf_vectors_token_order_witness :
  setup_tfidf_vectors
    [("doc1", (["dog"; "cat"; "cat"], "A")); ("doc2", (["bird"; "dog"], "B"));
     ("doc3", (["bird"; "cat"; "bird"], "A"))] pets_df None false
  = Ok [([tfidf_weight 2 3 2; tfidf_weight 1 3 2; PInt 0], "A");
        ([PInt 0; tfidf_weight 1 3 2; tfidf_weight 1 3 2], "B");
        ([tfidf_weight 1 3 2; PInt 0; tfidf_weight 2 3 2], "A")].
Proof.
  apply (setup_tfidf_vectors_token_order pets).
  - unfold same_token_bags, pets.
    repeat (constructor; [cbn; split_and!; [done | apply perm_swap | done]|]).
    constructor.
  - reflexivity.
Defined.

Section sample_texts_for_test_facts.
Variable disk : dict string.

Lemma sample_texts_for_test_loop_keys fpc (result dataset : raw_corpus) :
  sample_texts_for_test_loop disk fpc result = Ok dataset →
  keys dataset = foldl add_new (keys result) (fpc.*1).
Proof.
  revert result. induction fpc as [|[n p] rest IH]; intros result; [by intros [= <-]|].
  cbn [sample_texts_for_test_loop]. destruct (open_read disk p) as [text|]; [|done].
  cbn [mbind res_bind]. intros ->%IH. by rewrite keys_dict_set_add_new.
Qed.

(** Every entry written by the loop pairs the text of a listed file with
    the path it was read from. *)
Lemma sample_texts_for_test_loop_entries fpc (result dataset : raw_corpus) :
  sample_texts_for_test_loop disk fpc result = Ok dataset →
  ∀ doc_name text path, dict_get dataset doc_name = Some (text, path) →
    dict_get result doc_name = Some (text, path) ∨
    ((doc_name, path) ∈ fpc ∧ dict_get disk path = Some text).
Proof.
  revert result. induction fpc as [|[n p] rest IH]; intros result.
  - intros [= <-] doc_name text path ?. by left.
  - cbn [sample_texts_for_test_loop]. unfold open_read.
    destruct (dict_get disk p) as [t|] eqn:Hp; [|done]. cbn [mbind res_bind].
    intros Hrest doc_name text path Hget.
    destruct (IH _ Hrest _ _ _ Hget) as [Hset|[Hin Hdisk]].
    + rewrite dict_get_set in Hset. case_decide as Hn; [|by left].
      injection Hset as <- <-. subst. right. split; [left | done].
    + right. split; [by right | done].
Qed.
End sample_texts_for_test_facts.

(** [sample_texts_for_test] keeps one document per file name, in the order
    in which the names first appear, and labels each document with a listed
    path for its name, the path its text was read from. *)
Theorem sample_texts_for_test_labels (disk : dict string) (fpc : list (string * string))
    (dataset : raw_corpus) :
  sample_texts_for_test disk fpc = Ok dataset →
  keys dataset = distinct (fpc.*1) ∧
  ∀ doc_name text path, dict_get dataset doc_name = Some (text, path) →
    (doc_name, path) ∈ fpc ∧ dict_get disk path = Some text.
Proof.
  intros Hok. split.
  - apply sample_texts_for_test_loop_keys in Hok. cbn in Hok.
    by rewrite foldl_add_new_nil in Hok.
  - intros doc_name text path Hget.
    by destruct (sample_texts_for_test_loop_entries _ _ _ _ Hok _ _ _ Hget) as [?|?].
Qed.

Lemma sample_texts_for_test_labels_witness :
  keys [("doc1", ("cat dog cat", "/test/doc1")); ("doc2", ("dog emu", "/test/doc2"))]
    = distinct (pets_test_fpc.*1) ∧
  ∀ doc_name text path,
    dict_get [("doc1", ("cat dog cat", "/test/doc1")); ("doc2", ("dog emu", "/test/doc2"))]
      doc_name = Some (text, path) →
    (doc_name, path) ∈ pets_test_fpc ∧ dict_get pets_test_disk path = Some text.
Proof. apply (sample_texts_for_test_labels pets_test_disk pets_test_fpc). reflexivity. Defined.

(** ** More on the pipelines *)

Lemma cull_doc_freq_nil (m : doc_freq) low high :
  (∀ word names, dict_get m word = Some names → ¬ low < len names < high) →
  cull_doc_freq m low high = [].
Proof.
  intros Hout. destruct (cull_doc_freq m low high) as [|[word names] rest] eqn:E; [done|].
  assert (dict_get (cull_doc_freq m low high) word = Some names) as Hw.
  { rewrite E. cbn. by rewrite decide_True. }
  apply cull_doc_freq_strict_range_iff in Hw as [Hget Hr]. by apply Hout in Hget.
Qed.

Lemma vectorize_loop_empty_vocab N (dfm : doc_freq) ts tm i (docs : corpus) :
  N ≠ 0 →
  vectorize_loop [] N dfm ts tm i docs = Ok ((λ e, ([], e.2.2)) <$> docs).
Proof.
  intros HN. revert i. induction docs as [|[n [doc c]] rest IH]; intros i; [done|].
  cbn [vectorize_loop length replicate].
  assert (∀ tokens, fill_vector [] N dfm ts tm doc tokens [] = Ok []) as ->.
  { induction tokens as [|t tokens IHt]; [done|]. rewrite fill_vector_cons.
    rewrite bool_decide_eq_false_2; [done | apply not_elem_of_nil]. }
  cbn [mbind res_bind]. unfold print_loading_bar. rewrite decide_False by done.
  cbn [mbind res_bind]. by rewrite IH.
Qed.

Section pipeline_facts.
Variable tokenize : string → list string.
Variable disk : dict string.

(** [run] returns exactly when the manifest lists a document and every
    listed file is on the disk: the vectorization after the cull never
    raises. *)
Theorem run_returns_iff (fpc : list (string * string * string)) :
  (∃ r, run tokenize disk fpc = Ok r) ↔
  fpc ≠ [] ∧ Forall (λ e : string * string * string, is_Some (dict_get disk e.1.2)) fpc.
Proof.
  unfold run. split.
  - intros [r Hok]. destruct (sample_texts disk fpc) as [dataset|] eqn:Es; [|done].
    split; [|by apply sample_texts_loop_Ok_inv in Es].
    intros ->. injection Es as <-. done.
  - intros [Hne Hall].
    destruct (sample_texts_loop_succeeds disk fpc [] Hall) as [dataset Es].
    unfold sample_texts. rewrite Es. cbn [mbind res_bind].
    assert (dataset ≠ []) as Hd.
    { apply (sample_texts_loop_nonempty _ _ _ _ Es). by left. }
    destruct (tokenize_dataset_spec tokenize dataset Hd) as (dfm & -> & _ & _).
    cbn [mbind res_bind].
    destruct (setup_tfidf_vectors_succeeds (cull_doc_freq dfm 50 (len (keys dfm))) None false
                (tokenized tokenize dataset)) as [fvs ->]; [by destruct dataset | | by eexists].
    intros doc_name doc c token _ _ [names Hnames]%dict_get_is_Some.
    exists names. split; [done|].
    apply cull_doc_freq_strict_range_iff in Hnames as [_ Hr].
    intros ->. unfold len in Hr. simpl in Hr. lia.
Qed.

(** On a training corpus of at most 50 documents no token is found in more
    than 50 of them, so [run] returns an empty vocabulary and, for every
    document, an empty feature vector with its class. *)
Theorem run_small_corpus (fpc : list (string * string * string)) (dataset : raw_corpus) :
  fpc ≠ [] →
  sample_texts disk fpc = Ok dataset →
  (length dataset ≤ 50)%nat →
  run tokenize disk fpc = Ok ((λ e, ([], e.2.2)) <$> dataset, []).
Proof.
  intros Hne Es Hsmall. unfold run. rewrite Es. cbn [mbind res_bind].
  assert (dataset ≠ []) as Hd.
  { apply (sample_texts_loop_nonempty _ _ _ _ Es). by left. }
  destruct (tokenize_dataset_spec tokenize dataset Hd) as (dfm & -> & _ & Hspec).
  cbn [mbind res_bind].
  rewrite cull_doc_freq_nil.
  - unfold setup_tfidf_vectors, print_loading_bar.
    assert (0 < len (keys (tokenized tokenize dataset))) as HN.
    { apply len_keys_pos. by destruct dataset. }
    rewrite decide_False by lia. cbn [mbind res_bind keys fmap list_fmap].
    rewrite vectorize_loop_empty_vocab by lia. cbn [mbind res_bind]. do 2 f_equal.
    unfold tokenized. rewrite <-list_fmap_compose. by apply list_fmap_ext.
  - intros word names Hget [Hlow _]. rewrite Hspec in Hget.
    case_decide; [done|]. injection Hget as <-.
    pose proof (sublist_length _ _ (docs_containing_sublist word (tokenized tokenize dataset)))
      as Hlen.
    rewrite keys_tokenized in Hlen. unfold keys in Hlen. rewrite length_fmap in Hlen.
    unfold len in Hlow. lia.
Qed.

(** The part of [run_test] before the three [print] calls returns, with one
    vector per test document. *)
Lemma run_test_vectors (fpc : list (string * string)) (doc_freq_map : doc_freq)
    (dataset : raw_corpus) :
  fpc ≠ [] →
  sample_texts_for_test disk fpc = Ok dataset →
  ∃ docs doc_freq_testset f_vectors,
    tokenize_dataset tokenize dataset = Ok (docs, doc_freq_testset) ∧
    setup_tfidf_vectors docs doc_freq_map (Some doc_freq_testset) true = Ok f_vectors ∧
    length f_vectors = length dataset.
Proof.
  intros Hne Es.
  assert (dataset ≠ []) as Hd.
  { apply (sample_texts_for_test_loop_nonempty _ _ _ _ Es). by left. }
  destruct (tokenize_dataset_spec tokenize dataset Hd) as (dft & Htok & _ & Hspec).
  destruct (setup_tfidf_vectors_succeeds doc_freq_map (Some dft) true
              (tokenized tokenize dataset)) as [fvs Hfvs]; [by destruct dataset | |].
  - intros doc_name doc path token Hin Ht _.
    assert (dict_get dft token = Some (docs_containing token (tokenized tokenize dataset)) ∧
            docs_containing token (tokenized tokenize dataset) ≠ []) as [Hget Hnn].
    { assert (doc_name ∈ docs_containing token (tokenized tokenize dataset)) as Hdc
        by (apply elem_of_docs_containing; by exists doc, path).
      rewrite Hspec. case_decide as Hnil; [rewrite Hnil in Hdc; by apply elem_of_nil in Hdc|].
      done. }
    eexists. split; [|exact Hnn]. destruct dft; [done | exact Hget].
  - exists (tokenized tokenize dataset), dft, fvs. split_and!; [done..|].
    apply setup_tfidf_vectors_Ok in Hfvs as [_ Hall%Forall2_length].
    rewrite <-Hall. unfold tokenized. by rewrite length_fmap.
Qed.

(** [run_test] prints entries 0, 20 and 45 of its result before returning
    it: with fewer than 46 test documents it raises [IndexError], with 46 or
    more it returns the vectors [setup_tfidf_vectors] computed in test mode
    against the test set's own document-frequency map. *)
Theorem run_test_needs_46_documents (fpc : list (string * string))
    (doc_freq_map : doc_freq) (dataset : raw_corpus) :
  fpc ≠ [] →
  sample_texts_for_test disk fpc = Ok dataset →
  ∃ docs doc_freq_testset f_vectors,
    tokenize_dataset tokenize dataset = Ok (docs, doc_freq_testset) ∧
    setup_tfidf_vectors docs doc_freq_map (Some doc_freq_testset) true = Ok f_vectors ∧
    run_test tokenize disk fpc doc_freq_map =
      if decide (length dataset < 46)%nat then Raise IndexError else Ok f_vectors.
Proof.
  intros Hne Es.
  destruct (run_test_vectors fpc doc_freq_map dataset Hne Es)
    as (docs & dft & fvs & Htok & Hfvs & Hlen).
  exists docs, dft, fvs. split_and!; [done..|].
  unfold run_test. rewrite Es. cbn [mbind res_bind]. rewrite Htok. cbn [mbind res_bind].
  rewrite Hfvs. cbn [mbind res_bind]. unfold list_getitem. rewrite <-Hlen.
  case_decide as H46.
  - destruct (fvs !! 0%nat); [|done]. cbn [mbind res_bind].
    destruct (fvs !! 20%nat); [|done]. cbn [mbind res_bind].
    by rewrite (lookup_ge_None_2 fvs 45) by lia.
  - destruct (lookup_lt_is_Some_2 fvs 0) as [? ->]; [lia|].
    destruct (lookup_lt_is_Some_2 fvs 20) as [? ->]; [lia|].
    destruct (lookup_lt_is_Some_2 fvs 45) as [? ->]; [lia|]. done.
Qed.
End pipeline_facts.

Lemma run_small_corpus_witness :
  run String.words mixed_disk mixed_fpc =
    Ok ((λ e, ([], e.2.2)) <$>
          [("a.txt", ("vote poll", "news")); ("b.txt", ("vote", "news"));
           ("c.txt", ("goal", "sports")); ("d.txt", ("paint", "arts"));
           ("e.txt", ("run goal", "sports"))], []).
Proof.
  apply (run_small_corpus String.words mixed_disk mixed_fpc).
  - done.
  - reflexivity.
  - simpl. lia.
Defined.

Lemma run_test_needs_46_documents_witness :
  ∃ docs doc_freq_testset f_vectors,
    tokenize_dataset String.words ads_dataset = Ok (docs, doc_freq_testset) ∧
    setup_tfidf_vectors docs pets_df (Some doc_freq_testset) true = Ok f_vectors ∧
    run_test String.words ads_disk ads_fpc pets_df =
      if decide (length ads_dataset < 46)%nat then Raise IndexError else Ok f_vectors.
Proof.
  apply (run_test_needs_46_documents String.words ads_disk ads_fpc pets_df ads_dataset).
  - done.
  - vm_compute. reflexivity.
Defined.

(** ** More on the cull *)

(** Culling a culled map is culling once with the intersection of the two
    ranges; in particular culling twice with the same bounds changes
    nothing more. *)
Theorem cull_doc_freq_compose (doc_freq_map : doc_freq) (low1 high1 low2 high2 : Z) :
  dict_wf doc_freq_map →
  cull_doc_freq (cull_doc_freq doc_freq_map low1 high1) low2 high2 =
    cull_doc_freq doc_freq_map (Z.max low1 low2) (Z.min high1 high2) ∧
  cull_doc_freq (cull_doc_freq doc_freq_map low1 high1) low1 high1 =
    cull_doc_freq doc_freq_map low1 high1.
Proof.
  intros Hwf.
  assert (∀ (m : doc_freq) low high, dict_wf m →
    cull_doc_freq m low high = filter (λ kv, low < len kv.2 < high) m) as Hfilter.
  { intros m low high Hm. unfold cull_doc_freq.
    rewrite cull_fold_filter; [done | done |]. intros. by apply dict_get_wf. }
  assert (∀ l1 h1 l2 h2,
    cull_doc_freq (cull_doc_freq doc_freq_map l1 h1) l2 h2 =
    cull_doc_freq doc_freq_map (Z.max l1 l2) (Z.min h1 h2)) as Hcomp.
  { intros l1 h1 l2 h2. rewrite (Hfilter (cull_doc_freq _ _ _)) by apply cull_doc_freq_wf.
    rewrite !Hfilter by done. rewrite list_filter_filter.
    apply list_filter_iff. intros [word names]. cbn [snd]. lia. }
  split; [apply Hcomp|]. by rewrite Hcomp, Z.max_id, Z.min_id.
Qed.

Lemma cull_doc_freq_compose_witness :
  cull_doc_freq (cull_doc_freq pets_df 0 5) 1 3 = cull_doc_freq pets_df (Z.max 0 1) (Z.min 5 3) ∧
  cull_doc_freq (cull_doc_freq pets_df 0 5) 0 5 = cull_doc_freq pets_df 0 5.
Proof. apply (cull_doc_freq_compose pets_df 0 5 1 3). compute_done. Defined.

(** The cull keeps the surviving tokens in their order: the vocabulary index
    of the tokens that stay is their order in the map before the cull. *)
Theorem cull_doc_freq_keeps_order (doc_freq_map : doc_freq) (low high : Z) :
  dict_wf doc_freq_map →
  keys (cull_doc_freq doc_freq_map low high) =
    filter (λ word, is_Some (kept doc_freq_map low high word)) (keys doc_freq_map).
Proof.
  intros Hwf. unfold cull_doc_freq.
  rewrite cull_fold_filter; [|done|intros; by apply dict_get_wf]. cbn [app].
  assert (∀ rest : doc_freq, (∀ k v, (k, v) ∈ rest → dict_get doc_freq_map k = Some v) →
    keys (filter (λ kv, low < len kv.2 < high) rest) =
    filter (λ word, is_Some (kept doc_freq_map low high word)) (keys rest)) as Hrest.
  { induction rest as [|[k v] rest IH]; intros Hget; [done|].
    assert (dict_get doc_freq_map k = Some v) as Hk by (apply Hget; left).
    change (keys ((k, v) :: rest)) with (k :: keys rest).
    destruct (decide (low < len v < high)) as [Hr|Hr].
    - rewrite !filter_cons_True;
        [|unfold kept; rewrite Hk, bool_decide_eq_true_2 by done; by eexists|done].
      change (keys ((k, v) :: ?l)) with (k :: keys l). f_equal.
      apply IH. intros. apply Hget. by right.
    - rewrite !filter_cons_False;
        [|unfold kept; rewrite Hk, bool_decide_eq_false_2 by done; by intros [??]|done].
      apply IH. intros. apply Hget. by right. }
  apply Hrest. intros. by apply dict_get_wf.
Qed.

Lemma cull_doc_freq_keeps_order_witness :
  keys (cull_doc_freq [("a", ["x"; "y"]); ("b", ["x"]); ("c", ["x"; "y"; "z"]); ("d", ["y"; "z"])] 1 3) =
    filter (λ word,
              is_Some (kept [("a", ["x"; "y"]); ("b", ["x"]); ("c", ["x"; "y"; "z"]); ("d", ["y"; "z"])]
                         1 3 word))
           (keys [("a", ["x"; "y"]); ("b", ["x"]); ("c", ["x"; "y"; "z"]); ("d", ["y"; "z"])]).
Proof.
  apply (cull_doc_freq_keeps_order
           [("a", ["x"; "y"]); ("b", ["x"]); ("c", ["x"; "y"; "z"]); ("d", ["y"; "z"])] 1 3).
  compute_done.
Defined.

(** ** Sharing between the culled map and its input *)

Section cull_sharing.
Variables (s : Heap.store) (doc_freq_map : Heap.loc) (entries : dict Heap.loc).
Variables (low high : Z).
Hypothesis Hdict : s !! doc_freq_map = Some (Heap.ODict entries).

Lemma cull_step_refs culled word s1 :
  Heap.cull_step doc_freq_map low high (length s) (s ++ [Heap.ODict culled]) word = Ok s1 →
  ∃ culled', s1 = s ++ [Heap.ODict culled'] ∧
    ∀ w docs, dict_get culled' w = Some docs →
      dict_get culled w = Some docs ∨ dict_get entries w = Some docs.
Proof.
  unfold Heap.cull_step, Heap.dict_at.
  rewrite (lookup_app_l_Some _ _ _ _ Hdict). cbn [mbind res_bind]. unfold getitem.
  destruct (dict_get entries word) as [docs|] eqn:Hdocs; [|done]. cbn [mbind res_bind].
  destruct (Heap.list_at _ docs) as [elems|]; [|done]. cbn [mbind res_bind].
  destruct (_ && _).
  - unfold Heap.setitem, Heap.dict_at. rewrite list_lookup_middle by done.
    cbn [mbind res_bind]. intros [= <-]. exists (dict_set culled word docs). split.
    + rewrite insert_app_r_alt by done. by rewrite Nat.sub_diag.
    + intros w l. rewrite dict_get_set. case_decide as Hw; [|by left].
      intros [= <-]. subst w. by right.
  - intros [= <-]. exists culled. split; [done|]. intros. by left.
Qed.

Lemma cull_loop_refs words culled s1 :
  Heap.cull_loop doc_freq_map low high (length s) (s ++ [Heap.ODict culled]) words = Ok s1 →
  ∃ culled', s1 = s ++ [Heap.ODict culled'] ∧
    ∀ w docs, dict_get culled' w = Some docs →
      dict_get culled w = Some docs ∨ dict_get entries w = Some docs.
Proof.
  revert culled. induction words as [|word rest IH]; intros culled.
  - intros [= <-]. exists culled. split; [done|]. intros. by left.
  - cbn [Heap.cull_loop].
    destruct (Heap.cull_step _ _ _ _ _ word) as [s2|] eqn:Estep; [|done].
    cbn [mbind res_bind].
    apply cull_step_refs in Estep as (culled1 & -> & H1).
    intros (culled2 & -> & H2)%IH. exists culled2. split; [done|].
    intros w docs Hget. destruct (H2 _ _ Hget) as [Hc1|?]; [|by right]. by apply H1.
Qed.
End cull_sharing.

(** The culled map does not copy the document lists: every reference the
    returned dict stores under a word is the reference the input dict holds
    under that word, so the two maps share their list objects. *)
Theorem cull_doc_freq_shares_lists (s : list Heap.obj) (doc_freq_map : nat)
    (entries : dict nat) (low high : Z) (s' : list Heap.obj) (culled_df_map : nat) :
  s !! doc_freq_map = Some (Heap.ODict entries) →
  Heap.cull_doc_freq s doc_freq_map low high = Ok (s', culled_df_map) →
  ∃ culled,
    s' !! culled_df_map = Some (Heap.ODict culled) ∧
    s' !! doc_freq_map = Some (Heap.ODict entries) ∧
    ∀ word docs, dict_get culled word = Some docs → dict_get entries word = Some docs.
Proof.
  intros Hdict. unfold Heap.cull_doc_freq, Heap.new, Heap.dict_at.
  rewrite (lookup_app_l_Some _ _ _ _ Hdict). cbn [mbind res_bind].
  destruct (Heap.cull_loop _ _ _ _ _ (keys entries)) as [s1|] eqn:Eloop; [|done].
  cbn [mbind res_bind]. intros [= <- <-].
  apply (cull_loop_refs s doc_freq_map entries low high Hdict) in Eloop
    as (culled & -> & Hrefs).
  exists culled. split_and!.
  - by apply list_lookup_middle.
  - by apply lookup_app_l_Some.
  - intros word docs Hget. by destruct (Hrefs _ _ Hget) as [?|?].
Qed.

Lemma cull_doc_freq_shares_lists_witness :
  ∃ culled,
    (small_store ++ [Heap.ODict [("cat", 0%nat)]]) !! 3%nat = Some (Heap.ODict culled) ∧
    (small_store ++ [Heap.ODict [("cat", 0%nat)]]) !! 2%nat
      = Some (Heap.ODict [("cat", 0%nat); ("dog", 1%nat)]) ∧
    ∀ word docs, dict_get culled word = Some docs →
      dict_get [("cat", 0%nat); ("dog", 1%nat)] word = Some docs.
Proof.
  apply (cull_doc_freq_shares_lists small_store 2 [("cat", 0%nat); ("dog", 1%nat)] 1 3).
  - reflexivity.
  - reflexivity.
Defined.
